(** * Binigo: request dispatch core

    A shallow embedding of the router ([pkg/router.go]), the request context,
    the built-in middleware and the service container ([pkg/container.go]) of
    the Binigo web framework, together with the properties of the dispatch
    core that follow from the code.

    Go strings are modelled as [string] (sequences of bytes), Go maps as
    [gmap], Go [int] and [time.Time] as [Z], pointers as indices into an
    explicit store. *)

From Stdlib Require Import ZArith Ascii Lia.
From stdpp Require Import base option list gmap strings.

Set Default Proof Using "Type".

(** ** The [strings] package (the functions the framework calls) *)

Module Strings.

(** [strings.HasPrefix(s, prefix)]. *)
Fixpoint HasPrefix (s prefix : string) : bool :=
  match prefix with
  | "" => true
  | String p prefix' =>
      match s with
      | "" => false
      | String c s' => if Ascii.eqb c p then HasPrefix s' prefix' else false
      end
  end.

(** [strings.Contains(s, substr)]: [substr] occurs at some offset of [s]. *)
Fixpoint Contains (s substr : string) : bool :=
  HasPrefix s substr ||
  match s with
  | "" => false
  | String _ s' => Contains s' substr
  end.

(** [strings.ToUpper] on the ASCII range; a byte outside [a-z] is kept. *)
Definition upper (c : ascii) : ascii :=
  let n := nat_of_ascii c in
  if (97 <=? n)%nat && (n <=? 122)%nat then ascii_of_nat (n - 32) else c.

Fixpoint ToUpper (s : string) : string :=
  match s with
  | "" => ""
  | String c s' => String (upper c) (ToUpper s')
  end.

Fixpoint in_cutset (cutset : string) (c : ascii) : bool :=
  match cutset with
  | "" => false
  | String d cutset' => Ascii.eqb c d || in_cutset cutset' c
  end.

(** [strings.TrimLeft(s, cutset)] for an ASCII cutset. *)
Fixpoint TrimLeft (s cutset : string) : string :=
  match s with
  | "" => ""
  | String c s' => if in_cutset cutset c then TrimLeft s' cutset else s
  end.

(** [strings.TrimRight(s, cutset)]: a byte is dropped when everything after
    it has been dropped and it lies in the cutset. *)
Fixpoint TrimRight (s cutset : string) : string :=
  match s with
  | "" => ""
  | String c s' =>
      match TrimRight s' cutset with
      | "" => if in_cutset cutset c then "" else String c ""
      | t => String c t
      end
  end.

(** [strings.Trim(s, cutset)]. *)
Definition Trim (s cutset : string) : string :=
  TrimRight (TrimLeft s cutset) cutset.

End Strings.

(** ** The [regexp] package, on the patterns a route compiles to

    [Route.compile] hands [regexp.MustCompile] a pattern of the shape
    [^ ... $] whose body mixes literal text with the two groups it
    substitutes for parameters. The model covers exactly that fragment of the
    RE2 syntax: literal ASCII bytes that are not regular-expression
    operators, the capture group [([^/]+)] and the optional group
    [(?:([^/]+))?]. A pattern outside the fragment (one whose literal text
    contains an operator of the syntax or a byte outside ASCII) is not given
    a meaning: [MustCompile] answers [None] for it. [None] therefore says
    that the pattern is not covered here, not that Go panics: Go panics on
    some of these patterns and compiles the others (a dot in the literal
    text, a group written by hand), and then registers a route whose
    matching this development does not describe. Every property below of a
    compiled route is about a pattern inside the fragment. *)

Module Regexp.

Inductive node : Type :=
  | Lit (c : ascii)    (* one literal byte *)
  | Segment            (* ([^/]+) *)
  | OptSegment.        (* (?:([^/]+))? *)

Record Regexp : Type := { prog : list node }.

(** The operators of the pattern syntax. *)
Definition is_operator (c : ascii) : bool :=
  Strings.in_cutset "\.+*?()|[]{}^$" c.

Definition literal_byte (c : ascii) : bool :=
  (nat_of_ascii c <? 128)%nat && negb (is_operator c).

(** The body of the pattern, after [^]: read left to right up to the final
    [$]. [skip] counts the bytes of a group that was just recognised. *)
Fixpoint parse (skip : nat) (s : string) : option (list node) :=
  match s with
  | "" => None
  | String c rest =>
      match skip with
      | S k => parse k rest
      | O =>
          if Strings.HasPrefix s "(?:([^/]+))?" then cons OptSegment <$> parse 11 rest
          else if Strings.HasPrefix s "([^/]+)" then cons Segment <$> parse 6 rest
          else if Ascii.eqb c "$" then
            match rest with "" => Some [] | _ => None end
          else if literal_byte c then cons (Lit c) <$> parse 0 rest
          else None
      end
  end.

Definition MustCompile (pattern : string) : option Regexp :=
  match pattern with
  | String "^" body => Build_Regexp <$> parse 0 body
  | _ => None
  end.

(** [[^/]+] followed by the rest of the program [k]: greedy, so the longer
    capture is tried before the shorter one (leftmost-first matching). *)
Fixpoint segment (k : string → option (list string)) (s : string)
    : option (string * list string) :=
  match s with
  | "" => None
  | String c s' =>
      if Ascii.eqb c "/" then None
      else match segment k s' with
           | Some (cap, caps) => Some (String c cap, caps)
           | None => (λ caps, (String c "", caps)) <$> k s'
           end
  end.

(** Runs the program on the whole of [s] (the pattern is anchored at both
    ends); the result lists what each group captured, the empty string for a
    group that took no part in the match. *)
Fixpoint run (p : list node) (s : string) : option (list string) :=
  match p with
  | [] => match s with "" => Some [] | _ => None end
  | Lit c :: p' =>
      match s with
      | "" => None
      | String c' s' => if Ascii.eqb c' c then run p' s' else None
      end
  | Segment :: p' =>
      (λ r, r.1 :: r.2) <$> segment (run p') s
  | OptSegment :: p' =>
      match segment (run p') s with
      | Some r => Some (r.1 :: r.2)
      | None => cons "" <$> run p' s
      end
  end.

(** [re.FindStringSubmatch(s)]: the whole match, then the groups. *)
Definition FindStringSubmatch (re : Regexp) (s : string) : option (list string) :=
  cons s <$> run (prog re) s.

(** [\w]: an ASCII letter, digit or underscore. *)
Definition is_word (c : ascii) : bool :=
  let n := nat_of_ascii c in
  ((48 <=? n) && (n <=? 57) || (65 <=? n) && (n <=? 90) ||
   (97 <=? n) && (n <=? 122) || (n =? 95))%nat.

(** Length of the longest run of word bytes [s] starts with. *)
Fixpoint span_word (s : string) : nat :=
  match s with
  | "" => 0
  | String c s' => if is_word c then S (span_word s') else 0
  end.

(** A match of [\{(\w+)\}] at the start of [s]: its length. *)
Definition match_required (s : string) : option nat :=
  match s with
  | String "{" r =>
      let n := span_word r in
      if (0 <? n)%nat && bool_decide (String.get n r = Some "}"%char)
      then Some (n + 2) else None
  | _ => None
  end.

(** A match of [\{(\w+)\?\}] at the start of [s]: its length. *)
Definition match_optional (s : string) : option nat :=
  match s with
  | String "{" r =>
      let n := span_word r in
      if (0 <? n)%nat && bool_decide (String.get n r = Some "?"%char)
         && bool_decide (String.get (S n) r = Some "}"%char)
      then Some (n + 3) else None
  | _ => None
  end.

(** [re.ReplaceAllStringFunc(src, repl)] for a pattern given by [m], which
    says whether a match starts at the head of the text. Matches are found
    left to right and do not overlap; the result also lists the matched
    texts, in the order in which [repl] is called on them. *)
Fixpoint ReplaceAllStringFunc (m : string → option nat) (repl : string → string)
    (skip : nat) (s : string) : string * list string :=
  match s with
  | "" => ("", [])
  | String c rest =>
      match skip with
      | S k => ReplaceAllStringFunc m repl k rest
      | O =>
          match m s with
          | Some n =>
              let found := String.substring 0 n s in
              let r := ReplaceAllStringFunc m repl (n - 1) rest in
              (repl found +:+ r.1, found :: r.2)
          | None =>
              let r := ReplaceAllStringFunc m repl 0 rest in
              (String c r.1, r.2)
          end
      end
  end.

End Regexp.

(** ** Values, the request context and handlers *)

(** A value of type [interface{}], as far as the dispatch core builds one. *)
Inductive Value : Type :=
  | VNil
  | VBool (b : bool)
  | VInt (n : Z)
  | VString (s : string)
  | VStrings (l : list string).

(** [type Map map[string]interface{}]. *)
Abbreviation Map := (gmap string Value).

(** What [SetBody] last stored. A JSON body is kept as the value that was
    handed to [json.Marshal] rather than as its encoding. *)
Inductive Body : Type :=
  | NoBody
  | JSONBody (data : Map)
  | TextBody (text : string).

(** The part of [fasthttp.RequestCtx] the framework reads and writes. *)
Record RequestCtx : Type := {
  Method : string;
  Path : string;
  RemoteIP : string;
  RequestHeader : gmap string string;
  StatusCode : Z;
  ContentType : string;
  ResponseBody : Body
}.

(** [type Context struct]. [route] points at the matched route by its
    bucket and position, as the Go field points at the [Route]. *)
Record Context : Type := {
  fastCtx : RequestCtx;
  params : gmap string string;
  route : option (string * nat);
  store : Map
}.

(** The [error] a handler returns: [None] is [nil]. *)
Abbreviation error := (option string).

(** [type HandlerFunc]: a function from a pointer to the context to an
    error. The context is updated in place, so a handler maps it to the
    context it leaves behind. *)
Definition HandlerFunc : Type := Context → Context * error.

(** [type MiddlewareFunc func(HandlerFunc) HandlerFunc]. *)
Definition MiddlewareFunc : Type := HandlerFunc → HandlerFunc.

Definition NewContext (method path ip : string) (headers : gmap string string) : Context :=
  {| fastCtx := {| Method := method; Path := path; RemoteIP := ip;
                   RequestHeader := headers; StatusCode := 200;
                   ContentType := ""; ResponseBody := NoBody |};
     params := ∅; route := None; store := ∅ |}.

Definition with_fastCtx (f : RequestCtx → RequestCtx) (c : Context) : Context :=
  {| fastCtx := f (fastCtx c); params := params c; route := route c; store := store c |}.

(** [c.Header(name)]: the empty string when the header is not sent. *)
Definition Header (c : Context) (name : string) : string :=
  default "" (RequestHeader (fastCtx c) !! name).

Definition IP (c : Context) : string := RemoteIP (fastCtx c).

(** [c.Status(code)]. *)
Definition Status (code : Z) (c : Context) : Context :=
  with_fastCtx (λ f, {| Method := Method f; Path := Path f; RemoteIP := RemoteIP f;
                        RequestHeader := RequestHeader f; StatusCode := code;
                        ContentType := ContentType f; ResponseBody := ResponseBody f |}) c.

(** [c.JSON(data)]; marshalling a [Map] of the values above cannot fail. *)
Definition JSON (data : Map) (c : Context) : Context * error :=
  (with_fastCtx (λ f, {| Method := Method f; Path := Path f; RemoteIP := RemoteIP f;
                         RequestHeader := RequestHeader f; StatusCode := StatusCode f;
                         ContentType := "application/json";
                         ResponseBody := JSONBody data |}) c, None).

(** [c.AbortWithJSON(code, data)]. *)
Definition AbortWithJSON (code : Z) (data : Map) (c : Context) : Context * error :=
  JSON data (Status code c).

(** The failure envelope of the response helpers. *)
Definition failure_envelope (message : string) : Map :=
  <["success" := VBool false]> (<["error" := VString message]> ∅).

(** [c.Error(message, code...)]: the status is 400 unless one is given. *)
Definition Error (message : string) (code : option Z) (c : Context) : Context * error :=
  JSON (failure_envelope message) (Status (default 400%Z code) c).

(** [c.Set(key, value)] and [c.Get(key)]. *)
Definition Context_Set (key : string) (value : Value) (c : Context) : Context :=
  {| fastCtx := fastCtx c; params := params c; route := route c;
     store := <[key := value]> (store c) |}.

Definition Context_Get (key : string) (c : Context) : Value := default VNil (store c !! key).

(** ** Routes *)

Record Route : Type := {
  method : string;
  path : string;
  handler : HandlerFunc;
  middleware : list MiddlewareFunc;
  name : string;
  pattern : Regexp.Regexp;
  paramNames : list string
}.

(** [route.compile()]: both substitution passes, then the anchored pattern.
    The first pass records the names of all required parameters, the second
    the names of all optional ones. The answer is [None] when the pattern
    lies outside the fragment of [Regexp.MustCompile]. *)
Definition compile (route : Route) : option Route :=
  let required :=
    Regexp.ReplaceAllStringFunc Regexp.match_required (λ _, "([^/]+)") 0 (path route) in
  let names1 := (λ found, Strings.Trim found "{}") <$> required.2 in
  let optional :=
    Regexp.ReplaceAllStringFunc Regexp.match_optional (λ _, "(?:([^/]+))?") 0 required.1 in
  let names2 := (λ found, Strings.Trim found "{?}") <$> optional.2 in
  re ← Regexp.MustCompile ("^" +:+ optional.1 +:+ "$");
  Some {| method := method route; path := path route; handler := handler route;
          middleware := middleware route; name := name route; pattern := re;
          paramNames := paramNames route ++ names1 ++ names2 |}.

(** The loop of [Route.Match]: parameter [i] is bound to group [i+1] when
    that group exists and is not empty. *)
Fixpoint bind_params (matches names : list string) (i : nat)
    (acc : gmap string string) : gmap string string :=
  match names with
  | [] => acc
  | n :: names' =>
      bind_params matches names' (S i)
        (match matches !! (i + 1) with
         | Some v => if bool_decide (v = "") then acc else <[n := v]> acc
         | None => acc
         end)
  end.

(** [route.Match(path)]. *)
Definition Match (route : Route) (p : string) : bool * gmap string string :=
  match Regexp.FindStringSubmatch (pattern route) p with
  | None => (false, ∅)
  | Some matches => (true, bind_params matches (paramNames route) 0 ∅)
  end.

(** ** Routers

    A group is a [Router] of its own that holds the same [routes] map as the
    router it was made from: the map is kept once, beside the routers that
    point to it, and a router is named by its position. *)

Record Router : Type := {
  router_middleware : list MiddlewareFunc;
  prefix : string;
  parent : option nat
}.

Record Routers : Type := {
  routes : gmap string (list Route);
  routers : list Router
}.

(** [NewRouter()]: the root router is router 0. *)
Definition NewRouter : Routers :=
  {| routes := ∅;
     routers := [ {| router_middleware := []; prefix := ""; parent := None |} ] |}.

(** [r.Add(method, path, handler)]; the answer names the new route. It is
    [None] for a router that does not exist and for a path whose pattern
    lies outside the fragment of [Regexp.MustCompile]. *)
Definition Add (r : nat) (m p : string) (h : HandlerFunc) (rs : Routers)
    : option ((string * nat) * Routers) :=
  node ← routers rs !! r;
  compiled ← compile {| method := Strings.ToUpper m; path := prefix node +:+ p;
                        handler := h; middleware := []; name := "";
                        pattern := Regexp.Build_Regexp []; paramNames := [] |};
  let bucket := default [] (routes rs !! method compiled) in
  Some ((method compiled, length bucket),
        {| routes := <[method compiled := bucket ++ [compiled]]> (routes rs);
           routers := routers rs |}).

(** [route.Middleware(mw...)], on the route a registration returned. *)
Definition Route_Middleware (ref : string * nat) (mw : list MiddlewareFunc)
    (rs : Routers) : Routers :=
  {| routes :=
       alter (alter (λ rt, {| method := method rt; path := path rt;
                               handler := handler rt;
                               middleware := middleware rt ++ mw;
                               name := name rt; pattern := pattern rt;
                               paramNames := paramNames rt |}) ref.2)
             ref.1 (routes rs);
     routers := routers rs |}.

(** [r.Middleware(mw...)], on a router or group. *)
Definition Router_Middleware (r : nat) (mw : list MiddlewareFunc) (rs : Routers) : Routers :=
  {| routes := routes rs;
     routers := alter (λ node, {| router_middleware := router_middleware node ++ mw;
                                   prefix := prefix node; parent := parent node |})
                      r (routers rs) |}.

(** [r.Group(prefix, fn)]: the new router shares [routes], starts with no
    middleware, and [fn] runs on it. *)
Definition Group (r : nat) (pre : string) (fn : nat → Routers → option Routers)
    (rs : Routers) : option (nat * Routers) :=
  node ← routers rs !! r;
  let group := length (routers rs) in
  rs' ← fn group {| routes := routes rs;
                    routers := routers rs ++
                      [ {| router_middleware := []; prefix := prefix node +:+ pre;
                           parent := Some r |} ] |};
  Some (group, rs').

(** Nesting the middleware of a list around a handler, last one first. *)
Definition wrap (mw : list MiddlewareFunc) (h : HandlerFunc) : HandlerFunc :=
  foldr (λ m next, m next) h mw.

(** The scan of a bucket in [Router.Handle]: the first route that matches,
    with its position and the parameters it extracted. *)
Fixpoint first_match (bucket : list Route) (i : nat) (p : string)
    : option (nat * Route * gmap string string) :=
  match bucket with
  | [] => None
  | rt :: bucket' =>
      let r := Match rt p in
      if r.1 then Some (i, rt, r.2) else first_match bucket' (S i) p
  end.

Definition NotFound (ctx : Context) : Context * error :=
  JSON (<["error" := VString "Not Found"]> ∅) (Status 404 ctx).

(** [r.Handle(ctx)]. *)
Definition Handle (r : nat) (rs : Routers) (ctx : Context) : Context * error :=
  let m := Method (fastCtx ctx) in
  match routes rs !! m with
  | None => NotFound ctx
  | Some bucket =>
      match first_match bucket 0 (Path (fastCtx ctx)) with
      | Some (i, rt, ps) =>
          let ctx' := {| fastCtx := fastCtx ctx; params := ps;
                         route := Some (m, i); store := store ctx |} in
          let own := default [] (router_middleware <$> routers rs !! r) in
          wrap own (wrap (middleware rt) (handler rt)) ctx'
      | None => NotFound ctx
      end
  end.

(** ** The application *)

Record Application : Type := {
  router : nat;
  app_middleware : list MiddlewareFunc
}.

(** [a.Use(mw...)]. *)
Definition Use (mw : list MiddlewareFunc) (a : Application) : Application :=
  {| router := router a; app_middleware := app_middleware a ++ mw |}.

(** The request handler of [a.buildHandler()]: the global middleware around
    [a.router.Handle]; the error that comes back is dropped. *)
Definition buildHandler (a : Application) (rs : Routers) (ctx : Context) : Context :=
  (wrap (app_middleware a) (Handle (router a) rs) ctx).1.

(** ** Built-in middleware *)

(** [JSONOnlyMiddleware()]. *)
Definition JSONOnlyMiddleware : MiddlewareFunc := λ next ctx,
  let contentType := Header ctx "Content-Type" in
  if negb (String.eqb (Method (fastCtx ctx)) "GET")
     && negb (String.eqb (Method (fastCtx ctx)) "DELETE")
  then
    if negb (Strings.Contains contentType "application/json")
    then AbortWithJSON 415
           (<["error" := VString "Content-Type must be application/json"]> ∅) ctx
    else next ctx
  else next ctx.

(** The [client] record of [RateLimitMiddleware]. Times are counted in
    nanoseconds. [requests] never exceeds the quota (it is only incremented
    while below it), so the Go [int] cannot wrap. *)
Record client : Type := {
  requests : Z;
  resetTime : Z
}.

(** [time.Minute]. *)
Definition Minute : Z := 60000000000.

(** The handler [RateLimitMiddleware(requestsPerMinute)] builds around
    [next]. The [clients] map the closure owns is passed in and handed back,
    and [now] is what [time.Now()] reads. An entry that is found is updated
    in place, also when the request is then refused. *)
Definition RateLimitMiddleware (requestsPerMinute : Z) (next : HandlerFunc)
    (now : Z) (clients : gmap string client) (ctx : Context)
    : gmap string client * (Context * error) :=
  let ip := IP ctx in
  match clients !! ip with
  | Some c =>
      let c :=
        if (resetTime c <? now)%Z
        then {| requests := 0; resetTime := now + Minute |} else c in
      if (requestsPerMinute <=? requests c)%Z
      then (<[ip := c]> clients,
            AbortWithJSON 429 (<["error" := VString "Too many requests"]> ∅) ctx)
      else (<[ip := {| requests := requests c + 1; resetTime := resetTime c |}]> clients,
            next ctx)
  | None =>
      (<[ip := {| requests := 1; resetTime := now + Minute |}]> clients, next ctx)
  end.

(** Requests of one run, in order of arrival: each is served by the limiter
    with the clock reading it arrives at. *)
Fixpoint serve (requestsPerMinute : Z) (next : HandlerFunc)
    (reqs : list (Z * Context)) (clients : gmap string client)
    : gmap string client * list (Context * error) :=
  match reqs with
  | [] => (clients, [])
  | (now, ctx) :: reqs' =>
      let r := RateLimitMiddleware requestsPerMinute next now clients ctx in
      let rest := serve requestsPerMinute next reqs' r.1 in
      (rest.1, r.2 :: rest.2)
  end.

(** ** The service container *)

Section Container.

(** What an [interface{}] holds (a reference to an object), the state
    outside the container that a resolver reads and changes, and the
    resolver functions themselves. *)
Variable V : Type.
Variable W : Type.
Variable R : Type.

Record binding : Type := {
  resolver : R;
  singleton : bool
}.

Record Container : Type := {
  bindings : gmap string binding;
  instances : gmap string V;
  aliases : gmap string string
}.

(** [bind.resolver(c)]: a resolver gets the container, may change it and the
    state outside it, and answers an instance. *)
Variable call : R → Container → W → V * Container * W.

(** The container with the world its resolvers act on; [resolved] records
    every resolver invocation, by the name it was made for. *)
Record State : Type := {
  container : Container;
  world : W;
  resolved : list string
}.

Definition NewContainer : Container :=
  {| bindings := ∅; instances := ∅; aliases := ∅ |}.

(** [c.Bind(abstract, resolver)]. *)
Definition Bind (abstract : string) (r : R) (c : Container) : Container :=
  {| bindings := <[abstract := {| resolver := r; singleton := false |}]> (bindings c);
     instances := instances c; aliases := aliases c |}.

(** [c.Singleton(abstract, resolver)]. *)
Definition Singleton (abstract : string) (r : R) (c : Container) : Container :=
  {| bindings := <[abstract := {| resolver := r; singleton := true |}]> (bindings c);
     instances := instances c; aliases := aliases c |}.

(** [c.Instance(abstract, instance)]. *)
Definition Instance_ (abstract : string) (instance : V) (c : Container) : Container :=
  {| bindings := bindings c; instances := <[abstract := instance]> (instances c);
     aliases := aliases c |}.

(** [c.Alias(alias, abstract)]. *)
Definition Alias (alias abstract : string) (c : Container) : Container :=
  {| bindings := bindings c; instances := instances c;
     aliases := <[alias := abstract]> (aliases c) |}.

(** [c.Forget(abstract)]. *)
Definition Forget (abstract : string) (c : Container) : Container :=
  {| bindings := delete abstract (bindings c);
     instances := delete abstract (instances c); aliases := aliases c |}.

(** The store at the end of [Make]. *)
Definition store_instance (abstract : string) (instance : V) (c : Container) : Container :=
  {| bindings := bindings c; instances := <[abstract := instance]> (instances c);
     aliases := aliases c |}.

(** The name [Make] goes on with after the alias check. *)
Definition canonical (abstract : string) (c : Container) : string :=
  default abstract (aliases c !! abstract).

(** [c.Make(abstract)], run by one caller from start to end: the instance,
    or the error. *)
Definition Make (abstract : string) (st : State) : (V + string) * State :=
  let c := container st in
  let abstract := canonical abstract c in
  match instances c !! abstract with
  | Some instance => (inl instance, st)
  | None =>
      match bindings c !! abstract with
      | None => (inr ("binding not found: " +:+ abstract), st)
      | Some bind =>
          let r := call (resolver bind) c (world st) in
          let instance := r.1.1 in
          let c' := if singleton bind
                    then store_instance abstract instance r.1.2 else r.1.2 in
          (inl instance,
           {| container := c'; world := r.2; resolved := resolved st ++ [abstract] |})
      end
  end.

(** *** [Make] under concurrent callers

    [Make] holds the read lock while it looks at the three maps, holds no
    lock while the resolver runs, and holds the write lock for the store.
    A caller is therefore at one of four places, and moves from one to the
    next in one step that no other caller interrupts. *)

Inductive caller : Type :=
  | Calling (abstract : string)
  | Resolving (abstract : string) (bind : binding)
  | Storing (abstract : string) (bind : binding) (instance : V)
  | Returned (result : V + string).

Definition step (t : caller) (st : State) : caller * State :=
  match t with
  | Calling abstract =>
      let c := container st in
      let abstract := canonical abstract c in
      match instances c !! abstract with
      | Some instance => (Returned (inl instance), st)
      | None =>
          match bindings c !! abstract with
          | None => (Returned (inr ("binding not found: " +:+ abstract)), st)
          | Some bind => (Resolving abstract bind, st)
          end
      end
  | Resolving abstract bind =>
      let r := call (resolver bind) (container st) (world st) in
      (Storing abstract bind r.1.1,
       {| container := r.1.2; world := r.2; resolved := resolved st ++ [abstract] |})
  | Storing abstract bind instance =>
      (Returned (inl instance),
       if singleton bind
       then {| container := store_instance abstract instance (container st);
               world := world st; resolved := resolved st |}
       else st)
  | Returned result => (Returned result, st)
  end.

(** A schedule names, step by step, the caller that moves next. *)
Fixpoint schedule (order : list nat) (callers : list caller) (st : State)
    : list caller * State :=
  match order with
  | [] => (callers, st)
  | i :: order' =>
      match callers !! i with
      | Some t =>
          let r := step t st in
          schedule order' (<[i := r.1]> callers) r.2
      | None => schedule order' callers st
      end
  end.

End Container.

Arguments resolver {R} _.
Arguments singleton {R} _.
Arguments bindings {V R} _.
Arguments instances {V R} _.
Arguments aliases {V R} _.
Arguments container {V W R} _.
Arguments world {V W R} _.
Arguments resolved {V W R} _.
Arguments NewContainer {V R}.
Arguments Bind {V R} _ _ _.
Arguments Singleton {V R} _ _ _.
Arguments Instance_ {V R} _ _ _.
Arguments Alias {V R} _ _ _.
Arguments Forget {V R} _ _.
Arguments store_instance {V R} _ _ _.
Arguments canonical {V R} _ _.
Arguments Make {V W R} call _ _.
Arguments Calling {V R} _.
Arguments Resolving {V R} _ _.
Arguments Storing {V R} _ _ _.
Arguments Returned {V R} _.
Arguments step {V W R} call _ _.
Arguments schedule {V W R} call _ _ _.

(** ** Observing a run

    Handlers and middleware that leave a trace in the context store, the way
    a test records the order of the calls in a log that all of them share. *)

Definition note (entry : string) (c : Context) : Context :=
  Context_Set "log"
    (VStrings (match Context_Get "log" c with
               | VStrings l => l ++ [entry]
               | _ => [entry]
               end)) c.

Definition tracing (n : string) : MiddlewareFunc := λ next c,
  let r := next (note (n +:+ "-before") c) in
  (note (n +:+ "-after") r.1, r.2).

Definition answering (n : string) : HandlerFunc := λ c, (note n c, None).

Definition trace (c : Context) : Value := Context_Get "log" c.

(** The route a registration answered with. *)
Definition route_at (ref : string * nat) (rs : Routers) : option Route :=
  routes rs !! ref.1 ≫= (λ bucket, bucket !! ref.2).

(** A router whose only route is [GET /users]. *)
Definition users_only : Routers :=
  default NewRouter (snd <$> Add 0 "GET" "/users" (answering "index") NewRouter).

(** An application with global middleware [A], a group [/api] with
    middleware [G], and in the group a route [GET /x] with middleware [R]. *)
Definition grouped_routes : option Routers :=
  snd <$> Group 0 "/api"
    (λ g rs,
       '(ref, rs) ← Add g "GET" "/x" (answering "H") (Router_Middleware g [tracing "G"] rs);
       Some (Route_Middleware ref [tracing "R"] rs))
    NewRouter.

Definition grouped_app : Application :=
  Use [tracing "A"] {| router := 0; app_middleware := [] |}.

(** ** Resolvers *)

(** A resolver leaves a name alone when it changes none of the container's
    three entries for it. *)
Definition leaves_alone {V W R : Type} (call : R → Container V R → W → V * Container V R * W)
    (r : R) (abstract : string) : Prop :=
  ∀ c w,
    aliases (call r c w).1.2 !! abstract = aliases c !! abstract ∧
    instances (call r c w).1.2 !! abstract = instances c !! abstract ∧
    bindings (call r c w).1.2 !! abstract = bindings c !! abstract.

(** A resolver constructs a new object each time when a call never answers
    what the call before it answered. *)
Definition constructs_anew {V W R : Type} (call : R → Container V R → W → V * Container V R * W)
    (r : R) : Prop :=
  ∀ c w c', (call r c' (call r c w).2).1.1 ≠ (call r c w).1.1.

(** The resolver [func(c) { return &T{} }]: objects are named by their
    address, and the world is the next free address. *)
Definition construct (_ : unit) (c : Container nat unit) (next : nat)
    : nat * Container nat unit * nat :=
  (next, c, S next).

(** Two callers of [Make("svc")] on a singleton that is not resolved yet;
    both pass the read-locked check before either stores. *)
Definition two_callers : list (caller nat unit) * State nat nat unit :=
  schedule construct [0; 1; 0; 1; 0; 1] [Calling "svc"; Calling "svc"]
    {| container := Singleton "svc" tt NewContainer; world := 0; resolved := [] |}.

(** ** The rate limiter's window *)

(** A request of the client at 10.0.0.1. *)
Definition visitor : Context := NewContext "GET" "/" "10.0.0.1" ∅.

(** A window opens for [ip] at [now] when the limiter holds no entry for it
    or one whose reset time has passed. *)
Definition window_opens (clients : gmap string client) (ip : string) (now : Z) : Prop :=
  match clients !! ip with
  | None => True
  | Some c => (resetTime c < now)%Z
  end.

(** ** More of the context *)

(** [c.Param(name)]: the empty string for a name that is not bound. *)
Definition Param (c : Context) (n : string) : string := default "" (params c !! n).

(** ** More of the rate limiter *)

(** The requests of one client among those of a run, and the answers they
    were given. *)
Definition of_client (ip : string) (reqs : list (Z * Context)) : list (Z * Context) :=
  filter (λ q, IP q.2 = ip) reqs.

Definition answers_to (ip : string) (reqs : list (Z * Context))
    (answers : list (Context * error)) : list (Context * error) :=
  (filter (λ qa, IP qa.1.2 = ip) (zip reqs answers)).*2.

(** ** More of the container *)

Section ContainerMore.

Variable V : Type.
Variable W : Type.
Variable R : Type.
Variable call : R → Container V R → W → V * Container V R * W.

(** [c.Bound(abstract)]. *)
Definition Bound (abstract : string) (c : Container V R) : bool :=
  match bindings c !! abstract with
  | Some _ => true
  | None => match instances c !! abstract with Some _ => true | None => false end
  end.

(** [c.Flush()]. *)
Definition Flush (c : Container V R) : Container V R := NewContainer.

(** [c.MustMake(abstract)]: [None] where the Go code panics. *)
Definition MustMake (abstract : string) (st : State V W R) : option V * State V W R :=
  match (Make call abstract st).1 with
  | inl instance => (Some instance, (Make call abstract st).2)
  | inr _ => (None, (Make call abstract st).2)
  end.

(** A caller that runs [Make] from start to end with no other caller in
    between takes three steps. *)
Definition alone (abstract : string) (st : State V W R) : caller V R * State V W R :=
  let s1 := step call (Calling abstract) st in
  let s2 := step call s1.1 s1.2 in
  step call s2.1 s2.2.

End ContainerMore.

Arguments Bound {V R} _ _.
Arguments Flush {V R} _.
Arguments MustMake {V W R} call _ _.
Arguments alone {V W R} call _ _.

(** ** More of the application *)

(** The loop of [a.Any(path, handler)] over its list of methods. *)
Fixpoint add_each (r : nat) (methods : list string) (p : string) (h : HandlerFunc)
    (rs : Routers) : option (list (string * nat) * Routers) :=
  match methods with
  | [] => Some ([], rs)
  | m :: methods' =>
      added ← Add r m p h rs;
      rest ← add_each r methods' p h added.2;
      Some (added.1 :: rest.1, rest.2)
  end.

(** [a.Any(path, handler)]. *)
Definition Any (a : Application) (p : string) (h : HandlerFunc) (rs : Routers)
    : option (list (string * nat) * Routers) :=
  add_each (router a) ["GET"; "POST"; "PUT"; "DELETE"; "PATCH"; "OPTIONS"; "HEAD"] p h rs.

(** What [Any] answers on a new router for [/ping]. *)
Definition pinged : option (list (string * nat) * Routers) :=
  Any {| router := 0; app_middleware := [] |} "/ping" (λ c, (c, None)) NewRouter.

(** ** Examples the properties are tried on *)

(** [/users/{id}] registered before [/users/me]. *)
Definition users_routes : Routers :=
  default NewRouter
    (added ← Add 0 "GET" "/users/{id}" (answering "show") NewRouter;
     snd <$> Add 0 "GET" "/users/me" (answering "me") added.2).

(** The route of [users_only] with middleware [R] of its own, on a root
    router with middleware [B]. *)
Definition layered_routes : Routers :=
  Router_Middleware 0 [tracing "B"] (Route_Middleware ("GET", 0) [tracing "R"] users_only).

(** A container with the alias chain [a] to [b] to [c] and an instance
    cached under [c] only. *)
Definition chained : Container nat unit :=
  Alias "a" "b" (Alias "b" "c" (Instance_ "c" 7 NewContainer)).

(** A container with a singleton [svc], an alias [service] for it and an
    instance cached under it. *)
Definition aliased : Container nat unit :=
  Alias "service" "svc" (Instance_ "svc" 7 (Singleton "svc" tt NewContainer)).

(** The log the tracing middleware writes, and a run of entries added to
    it in order. *)
Definition log_of (c : Context) : list string :=
  match Context_Get "log" c with
  | VStrings l => l
  | _ => []
  end.

Definition notes (entries : list string) (c : Context) : Context :=
  foldl (λ c entry, note entry c) c entries.

Definition before (names : list string) : list string := (λ n, n +:+ "-before") <$> names.
Definition after (names : list string) : list string := (λ n, n +:+ "-after") <$> names.

(** ** Route templates

    The path syntax of the framework: literal text, [{name}] for a required
    parameter and [{name?}] for an optional one. A template is described by
    its parts; each part of a parameter also carries the text a concrete
    path has at its place (the empty text for an optional parameter that is
    left out). *)

Inductive part : Type :=
  | Fixed (text : string)
  | Req (n : string) (value : string)
  | Opt (n : string) (value : string).

(** The template the parts spell. *)
Definition spell (p : part) : string :=
  match p with
  | Fixed text => text
  | Req n _ => "{" +:+ n +:+ "}"
  | Opt n _ => "{" +:+ n +:+ "?}"
  end.

Definition template_of (parts : list part) : string :=
  foldr (λ p rest, spell p +:+ rest) "" parts.

(** The path obtained by writing each value in place of its parameter. *)
Definition fill (p : part) : string :=
  match p with
  | Fixed text => text
  | Req _ value => value
  | Opt _ value => value
  end.

Definition path_of (parts : list part) : string :=
  foldr (λ p rest, fill p +:+ rest) "" parts.

(** The parameters of a template in the order of their positions, with
    their values; the names of the required ones; the names of the optional
    ones. *)
Definition bound_of (p : part) : list (string * string) :=
  match p with
  | Fixed _ => []
  | Req n v => [(n, v)]
  | Opt n v => [(n, v)]
  end.

Definition required_of (p : part) : list string :=
  match p with Req n _ => [n] | _ => [] end.

Definition optional_of (p : part) : list string :=
  match p with Opt n _ => [n] | _ => [] end.

Definition parameters (parts : list part) : list (string * string) :=
  parts ≫= bound_of.
Definition required_names (parts : list part) : list string := parts ≫= required_of.
Definition optional_names (parts : list part) : list string := parts ≫= optional_of.

(** The program a template stands for. *)
Definition nodes_of (p : part) : list Regexp.node :=
  match p with
  | Fixed text => Regexp.Lit <$> String.list_ascii_of_string text
  | Req _ _ => [Regexp.Segment]
  | Opt _ _ => [Regexp.OptSegment]
  end.

Definition program_of (parts : list part) : list Regexp.node := parts ≫= nodes_of.

(** Every byte of a string passes a test. *)
Fixpoint every (f : ascii → bool) (s : string) : bool :=
  match s with
  | "" => true
  | String c s' => f c && every f s'
  end.

Definition not_slash (c : ascii) : bool := negb (Ascii.eqb c "/").

(** A parameter name is a non-empty run of word bytes. *)
Definition is_name (n : string) : bool :=
  every Regexp.is_word n && negb (String.eqb n "").

(** A value that fills one segment: not empty, no separator. *)
Definition is_segment (v : string) : bool :=
  every not_slash v && negb (String.eqb v "").

(** A template is well formed when its literal text is made of literal
    bytes (ASCII, no operator of the pattern syntax) and the names of its
    parameters are names. *)
Definition template_ok (p : part) : bool :=
  match p with
  | Fixed text => every Regexp.literal_byte text
  | Req n _ => is_name n
  | Opt n _ => is_name n
  end.

(** The values fit when that of a required parameter is a segment and that
    of an optional parameter is a segment or empty. *)
Definition values_ok (p : part) : bool :=
  match p with
  | Fixed _ => true
  | Req _ v => is_segment v
  | Opt _ v => every not_slash v
  end.

(** For each parameter in the order of the positions, whether it is
    required. *)
Definition kind_of (p : part) : list bool :=
  match p with
  | Fixed _ => []
  | Req _ _ => [true]
  | Opt _ _ => [false]
  end.

Definition kinds (parts : list part) : list bool := parts ≫= kind_of.

(** What a group can capture: a segment, or nothing when it is optional. *)
Definition captured (required : bool) (v : string) : bool :=
  is_segment v || (negb required && String.eqb v "").

(** No required parameter comes after an optional one. *)
Fixpoint optional_last (parts : list part) : bool :=
  match parts with
  | [] => true
  | Opt _ _ :: parts' => bool_decide (required_names parts' = []) && optional_last parts'
  | _ :: parts' => optional_last parts'
  end.

(** Every parameter is followed by the end of the template or by literal
    text that starts with the separator, so that it ends its segment. *)
Definition starts_segment (parts : list part) : bool :=
  match parts with
  | [] => true
  | Fixed (String "/" _) :: _ => true
  | _ => false
  end.

Fixpoint delimited (parts : list part) : bool :=
  match parts with
  | [] => true
  | Fixed _ :: parts' => delimited parts'
  | _ :: parts' => starts_segment parts' && delimited parts'
  end.

(** The route [Add] hands to [compile] for a template, before compilation. *)
Definition declared (m : string) (template : string) (h : HandlerFunc) : Route :=
  {| method := m; path := template; handler := h; middleware := []; name := "";
     pattern := Regexp.Build_Regexp []; paramNames := [] |}.

(** The template after the first pass of [compile] (required parameters
    replaced) and after the second (optional ones replaced too). *)
Definition after_first (p : part) : string :=
  match p with
  | Fixed text => text
  | Req _ _ => "([^/]+)"
  | Opt n _ => "{" +:+ n +:+ "?}"
  end.

Definition after_second (p : part) : string :=
  match p with
  | Fixed text => text
  | Req _ _ => "([^/]+)"
  | Opt _ _ => "(?:([^/]+))?"
  end.

Definition half_compiled (parts : list part) : string :=
  foldr (λ p rest, after_first p +:+ rest) "" parts.

Definition pattern_body (parts : list part) : string :=
  foldr (λ p rest, after_second p +:+ rest) "" parts.

(** A text that is empty or starts with the separator. *)
Definition at_boundary (s : string) : Prop :=
  match s with
  | "" => True
  | String c _ => c = "/"%char
  end.

(** ** Example templates *)

(** [/users/{id}/posts/{slug?}], with the values of the path
    [/users/42/posts/]: the optional [slug] is left out. *)
Definition user_post : list part :=
  [Fixed "/users/"; Req "id" "42"; Fixed "/posts/"; Opt "slug" ""].

(** The compiled route of that template. *)
Definition show_post : Route :=
  default (declared "GET" "" (answering "show"))
    (compile (declared "GET" "/users/{id}/posts/{slug?}" (answering "show"))).

(** A context whose parameters are those of a match. *)
Definition matched (ps : gmap string string) : Context :=
  {| fastCtx := fastCtx visitor; params := ps; route := None; store := ∅ |}.

(** * Properties *)

(** ** Dispatch *)

Lemma wrap_app (mw1 mw2 : list MiddlewareFunc) (h : HandlerFunc) :
  wrap (mw1 ++ mw2) h = wrap mw1 (wrap mw2 h).
Proof. unfold wrap. apply foldr_app. Qed.

Lemma first_match_None (bucket : list Route) (i : nat) (p : string) :
  first_match bucket i p = None ↔ Forall (λ rt, (Match rt p).1 = false) bucket.
Proof.
  revert i. induction bucket as [|rt bucket IH]; intros i; simpl.
  - split; [constructor | done].
  - destruct (Match rt p).1 eqn:E.
    + split; [done | intros H; inversion H; congruence].
    + rewrite IH. split; [by constructor | by inversion 1].
Qed.

(** The scan skips the routes that do not match and stops at the first
    that does. *)
Lemma first_match_app (pre post : list Route) (rt : Route) (i : nat) (p : string)
    (ps : gmap string string) :
  Forall (λ rt, (Match rt p).1 = false) pre →
  Match rt p = (true, ps) →
  first_match (pre ++ rt :: post) i p = Some (i + length pre, rt, ps).
Proof.
  revert i. induction pre as [|x pre IH]; intros i Hpre Hrt; simpl.
  - rewrite Hrt. simpl. by rewrite Nat.add_0_r.
  - inversion Hpre as [|? ? Hx Hpre']; subst. rewrite Hx.
    rewrite IH by done. do 3 f_equal. lia.
Qed.

(** What [Handle] runs once a route is found: the middleware of the router
    it is called on, then the route's own, then the handler. *)
Lemma Handle_found (r : nat) (rs : Routers) (ctx : Context) (bucket : list Route)
    (i : nat) (rt : Route) (ps : gmap string string) :
  routes rs !! Method (fastCtx ctx) = Some bucket →
  first_match bucket 0 (Path (fastCtx ctx)) = Some (i, rt, ps) →
  Handle r rs ctx =
    wrap (default [] (router_middleware <$> routers rs !! r) ++ middleware rt) (handler rt)
      {| fastCtx := fastCtx ctx; params := ps;
         route := Some (Method (fastCtx ctx), i); store := store ctx |}.
Proof.
  intros Hb Hm. unfold Handle. rewrite Hb, Hm. by rewrite wrap_app.
Qed.

(** [Handle] on one router reads no other router's middleware. *)
Lemma Handle_other_router (r g : nat) (mw : list MiddlewareFunc) (rs : Routers)
    (ctx : Context) :
  r ≠ g → Handle r (Router_Middleware g mw rs) ctx = Handle r rs ctx.
Proof.
  intros Hne. unfold Handle, Router_Middleware. simpl.
  by rewrite list_lookup_alter_ne.
Qed.

(** C2, on the code: a request for a route that was registered through a
    group, whose middleware is [G], is served by the global middleware [A],
    the route's middleware [R] and the handler [H]; [G] does not run,
    neither before nor after the handler. *)
Theorem group_middleware_does_not_run :
  (λ rs, trace (buildHandler grouped_app rs (NewContext "GET" "/api/x" "10.0.0.1" ∅)))
    <$> grouped_routes
  = Some (VStrings ["A-before"; "R-before"; "H"; "R-after"; "A-after"]).
Proof. vm_compute. reflexivity. Qed.

(** C3 as stated fails: with no route at all, the body of the 404 answer is
    not the failure envelope, whatever its message. *)
Lemma not_found_body_is_no_envelope :
  ¬ ∃ message,
      ResponseBody (fastCtx (Handle 0 NewRouter (NewContext "GET" "/missing" "10.0.0.1" ∅)).1)
      = JSONBody (failure_envelope message).
Proof.
  intros [message H].
  apply (f_equal (λ b, match b with JSONBody m => m !! "success" | _ => None end)) in H.
  unfold failure_envelope in H. rewrite lookup_insert_eq in H.
  vm_compute in H. discriminate H.
Qed.

(** C3, amended: when no route registered under the request's method matches
    its path, [Handle] runs no handler, sets status 404 and answers the JSON
    object [{"error": "Not Found"}] with a nil error; routes under other
    methods, at the same path or not, make no difference. *)
Theorem Handle_not_found (r : nat) (rs : Routers) (ctx : Context) :
  Forall (λ rt, (Match rt (Path (fastCtx ctx))).1 = false)
         (default [] (routes rs !! Method (fastCtx ctx))) →
  Handle r rs ctx = NotFound ctx ∧
  StatusCode (fastCtx (Handle r rs ctx).1) = 404%Z ∧
  ResponseBody (fastCtx (Handle r rs ctx).1) = JSONBody {["error" := VString "Not Found"]} ∧
  (Handle r rs ctx).2 = None ∧
  store (Handle r rs ctx).1 = store ctx.
Proof.
  intros Hno.
  assert (Handle r rs ctx = NotFound ctx) as ->.
  { unfold Handle. destruct (routes rs !! Method (fastCtx ctx)) as [bucket|]; [|done].
    simpl in Hno. apply (first_match_None _ 0) in Hno. by rewrite Hno. }
  done.
Qed.

(** A router with [GET /users] only, asked for [POST /users]. *)
Lemma Handle_not_found_witness :
  is_Some (route_at ("GET", 0) users_only) ∧
  StatusCode (fastCtx (Handle 0 users_only (NewContext "POST" "/users" "10.0.0.1" ∅)).1)
    = 404%Z ∧
  ResponseBody (fastCtx (Handle 0 users_only (NewContext "POST" "/users" "10.0.0.1" ∅)).1)
    = JSONBody {["error" := VString "Not Found"]}.
Proof.
  split; [vm_compute; eauto|].
  destruct (Handle_not_found 0 users_only (NewContext "POST" "/users" "10.0.0.1" ∅))
    as (_ & H1 & H2 & _); [vm_compute; constructor|].
  split; [exact H1 | exact H2].
Defined.

(** The scan answers the matching route of least position. *)
Lemma first_match_least (bucket : list Route) (n i : nat) (rt : Route) (p : string) :
  bucket !! i = Some rt → (Match rt p).1 = true →
  ∃ k rt' ps,
    k ≤ i ∧ bucket !! k = Some rt' ∧ Match rt' p = (true, ps) ∧
    (∀ k' rt'', k' < k → bucket !! k' = Some rt'' → (Match rt'' p).1 = false) ∧
    first_match bucket n p = Some (n + k, rt', ps).
Proof.
  revert n i. induction bucket as [|x bucket IH]; intros n i Hi Hm; [done|].
  cbn [first_match]. destruct (Match x p) as [matched ps] eqn:Hx. cbn [fst snd].
  destruct matched.
  - exists 0, x, ps. split; [lia|]. split; [done|]. split; [done|].
    split; [intros; lia|]. by rewrite Nat.add_0_r.
  - destruct i as [|i].
    + injection Hi as ->. rewrite Hx in Hm. done.
    + destruct (IH (S n) i Hi Hm) as (k & rt' & ps' & Hk & Hl & HM & Hleast & Hf).
      exists (S k), rt', ps'. split; [lia|]. split; [done|]. split; [done|]. split.
      * intros [|k'] rt'' Hlt Hl'.
        -- injection Hl' as <-. by rewrite Hx.
        -- apply (Hleast k'); [lia|done].
      * rewrite Hf. do 3 f_equal. lia.
Qed.

(** C5: routes of one method are scanned in the order of their registration,
    which is their order in the bucket since [Add] appends. When two routes
    of the bucket both match the request path, [Handle] dispatches to the
    matching route that was registered earliest, which is registered no
    later than the first of the two, and is the first of the two when no
    route registered before it matches; it binds the parameters that route
    extracts and runs its handler inside its middleware. In particular,
    after [/users/{id}] and then [/users/me] are registered on a new router,
    a [GET] request to [/users/me] is handled by the handler of
    [/users/{id}] with [id] bound to [me]. *)
Theorem first_registered_route_wins :
  (∀ (r : nat) (rs : Routers) (ctx : Context) (bucket : list Route) (i j : nat)
     (rt1 rt2 : Route),
     routes rs !! Method (fastCtx ctx) = Some bucket →
     bucket !! i = Some rt1 → bucket !! j = Some rt2 → i < j →
     (Match rt1 (Path (fastCtx ctx))).1 = true →
     (Match rt2 (Path (fastCtx ctx))).1 = true →
     ∃ k rt ps,
       k ≤ i ∧ bucket !! k = Some rt ∧ Match rt (Path (fastCtx ctx)) = (true, ps) ∧
       (∀ k' rt', k' < k → bucket !! k' = Some rt' →
          (Match rt' (Path (fastCtx ctx))).1 = false) ∧
       ((∀ k' rt', k' < i → bucket !! k' = Some rt' →
           (Match rt' (Path (fastCtx ctx))).1 = false) → k = i ∧ rt = rt1) ∧
       Handle r rs ctx =
         wrap (default [] (router_middleware <$> routers rs !! r) ++ middleware rt)
           (handler rt)
           {| fastCtx := fastCtx ctx; params := ps;
              route := Some (Method (fastCtx ctx), k); store := store ctx |}) ∧
  (∀ (h1 h2 : HandlerFunc) (ctx : Context),
     Method (fastCtx ctx) = "GET" → Path (fastCtx ctx) = "/users/me" →
     ∃ ref1 rs1 ref2 rs2,
       Add 0 "GET" "/users/{id}" h1 NewRouter = Some (ref1, rs1) ∧
       Add 0 "GET" "/users/me" h2 rs1 = Some (ref2, rs2) ∧
       Handle 0 rs2 ctx =
         h1 {| fastCtx := fastCtx ctx; params := {["id" := "me"]};
               route := Some ref1; store := store ctx |}).
Proof.
  split.
  - intros r rs ctx bucket i j rt1 rt2 Hb Hi Hj Hij H1 H2.
    destruct (first_match_least bucket 0 i rt1 _ Hi H1)
      as (k & rt & ps & Hk & Hl & HM & Hleast & Hf).
    exists k, rt, ps. split; [done|]. split; [done|]. split; [done|]. split; [done|].
    split.
    + intros Hfirst. destruct (decide (k = i)) as [->|Hne].
      * split; [done|]. rewrite Hi in Hl. by injection Hl.
      * assert (k < i) as Hlt by lia. specialize (Hfirst k rt Hlt Hl).
        rewrite HM in Hfirst. done.
    + exact (Handle_found r rs ctx bucket k rt ps Hb Hf).
  - intros h1 h2 ctx Hm Hp.
    eexists _, _, _, _. split; [vm_compute; reflexivity|].
    split; [vm_compute; reflexivity|].
    unfold Handle. rewrite Hm, Hp. reflexivity.
Qed.

(** The first part on [users_routes]: the two routes match [/users/me], and
    the request goes to the one at position 0. *)
Lemma first_registered_route_wins_witness :
  ∃ rt ps,
    default [] (routes users_routes !! "GET") !! 0 = Some rt ∧
    path rt = "/users/{id}" ∧ ps !! "id" = Some "me" ∧
    Handle 0 users_routes (NewContext "GET" "/users/me" "10.0.0.1" ∅) =
      handler rt {| fastCtx := fastCtx (NewContext "GET" "/users/me" "10.0.0.1" ∅);
                    params := ps; route := Some ("GET", 0); store := ∅ |}.
Proof.
  destruct first_registered_route_wins as [H _].
  destruct (H 0 users_routes (NewContext "GET" "/users/me" "10.0.0.1" ∅)
              (default [] (routes users_routes !! "GET")) 0 1
              (default (Build_Route "" "" (answering "") [] "" (Regexp.Build_Regexp []) [])
                 (route_at ("GET", 0) users_routes))
              (default (Build_Route "" "" (answering "") [] "" (Regexp.Build_Regexp []) [])
                 (route_at ("GET", 1) users_routes)))
    as (k & rt & ps & _ & Hl & HM & _ & Hfirst & HH).
  - reflexivity.
  - reflexivity.
  - reflexivity.
  - lia.
  - vm_compute. reflexivity.
  - vm_compute. reflexivity.
  - destruct Hfirst as [-> ->]; [intros k' rt' Hk'; lia|].
    eexists _, ps. split; [reflexivity|]. split; [reflexivity|].
    split; [|exact HH].
    apply (f_equal (λ r, r.2 !! "id")) in HM. symmetry in HM. exact HM.
Defined.

(** ** The content-type gate *)

(** C4 as stated fails: [DELETE] is not a safe read, yet a [DELETE] request
    that declares [text/plain] is handed to the downstream handler and keeps
    status 200. *)
Lemma JSONOnly_lets_DELETE_through :
  let req := NewContext "DELETE" "/users/7" "10.0.0.1" {["Content-Type" := "text/plain"]} in
  JSONOnlyMiddleware (answering "downstream") req = answering "downstream" req ∧
  StatusCode (fastCtx (JSONOnlyMiddleware (answering "downstream") req).1) = 200%Z ∧
  trace (JSONOnlyMiddleware (answering "downstream") req).1 = VStrings ["downstream"].
Proof. vm_compute. done. Qed.

(** C4, amended: for every request whose method is neither [GET] nor
    [DELETE] (so for every mutating method other than [DELETE]: [POST],
    [PUT], [PATCH]) and whose [Content-Type] header does not contain
    [application/json], the gate answers 415 with a JSON error body and the
    answer does not depend on the downstream handler, which is not run; a
    [DELETE] request, like a [GET], is handed to the downstream handler
    whatever content type it declares. *)
Theorem JSONOnly_rejects (next : HandlerFunc) (ctx : Context) :
  (Method (fastCtx ctx) ≠ "GET" →
   Method (fastCtx ctx) ≠ "DELETE" →
   Strings.Contains (Header ctx "Content-Type") "application/json" = false →
   JSONOnlyMiddleware next ctx =
     AbortWithJSON 415 {["error" := VString "Content-Type must be application/json"]} ctx ∧
   StatusCode (fastCtx (JSONOnlyMiddleware next ctx).1) = 415%Z ∧
   store (JSONOnlyMiddleware next ctx).1 = store ctx) ∧
  (Method (fastCtx ctx) = "DELETE" ∨ Method (fastCtx ctx) = "GET" →
   JSONOnlyMiddleware next ctx = next ctx).
Proof.
  split.
  - intros Hget Hdel Hct.
    assert (JSONOnlyMiddleware next ctx =
      AbortWithJSON 415 {["error" := VString "Content-Type must be application/json"]} ctx)
      as ->.
    { unfold JSONOnlyMiddleware.
      apply String.eqb_neq in Hget, Hdel. rewrite Hget, Hdel, Hct. reflexivity. }
    done.
  - unfold JSONOnlyMiddleware. intros [-> | ->]; reflexivity.
Qed.

(** A [POST] and a [DELETE] that both declare [text/plain]. *)
Lemma JSONOnly_rejects_witness :
  let post := NewContext "POST" "/users" "10.0.0.1" {["Content-Type" := "text/plain"]} in
  let delete := NewContext "DELETE" "/users/7" "10.0.0.1" {["Content-Type" := "text/plain"]} in
  StatusCode (fastCtx (JSONOnlyMiddleware (answering "downstream") post).1) = 415%Z ∧
  trace (JSONOnlyMiddleware (answering "downstream") post).1 = VNil ∧
  JSONOnlyMiddleware (answering "downstream") delete = answering "downstream" delete.
Proof.
  intros post delete.
  destruct (JSONOnly_rejects (answering "downstream") post) as [Hpost _].
  destruct (JSONOnly_rejects (answering "downstream") delete) as [_ Hdelete].
  destruct Hpost as (H & H1 & _);
    [vm_compute; congruence | vm_compute; congruence | vm_compute; reflexivity |].
  split; [exact H1|]. split; [rewrite H; vm_compute; reflexivity|].
  apply Hdelete. left. reflexivity.
Defined.

(** ** The rate limiter *)

(** While the window is open and the count is below the quota, requests of
    the client are passed on and counted. *)
Lemma serve_within_window (N : Z) (next : HandlerFunc) (ip : string) (T : Z)
    (reqs : list (Z * Context)) (clients : gmap string client) (k : Z) :
  clients !! ip = Some {| requests := k; resetTime := T |} →
  (k + Z.of_nat (length reqs) ≤ N)%Z →
  Forall (λ q, IP q.2 = ip ∧ (q.1 ≤ T)%Z) reqs →
  serve N next reqs clients =
    (<[ip := {| requests := k + Z.of_nat (length reqs); resetTime := T |}]> clients,
     (λ q, next q.2) <$> reqs).
Proof.
  revert clients k. induction reqs as [|[now ctx] reqs IH]; intros clients k Hc Hk Hall.
  - simpl. rewrite Z.add_0_r. by rewrite insert_id.
  - apply Forall_cons in Hall as [[Hip Hnow] Hall']. simpl in Hip, Hnow.
    cbn [serve]. unfold RateLimitMiddleware. rewrite Hip, Hc. cbn [resetTime requests].
    assert ((T <? now)%Z = false) as -> by lia. cbn [requests resetTime].
    rewrite length_cons in Hk.
    assert ((N <=? k)%Z = false) as -> by lia. cbn [fst snd].
    rewrite (IH _ (k + 1)%Z); [| by rewrite lookup_insert_eq | lia | done].
    cbn [fst snd fmap list_fmap]. rewrite insert_insert_eq, length_cons.
    do 3 f_equal. lia.
Qed.

(** C9 as stated fails for the quota 0: the first request of a client, which
    is request number 0 + 1, is passed downstream and answered with 200. *)
Lemma RateLimit_zero_quota_admits :
  let req := NewContext "GET" "/" "10.0.0.1" ∅ in
  (RateLimitMiddleware 0 (answering "downstream") 0 ∅ req).2 = answering "downstream" req ∧
  StatusCode (fastCtx (RateLimitMiddleware 0 (answering "downstream") 0 ∅ req).2.1) = 200%Z.
Proof. vm_compute. done. Qed.

(** C9, amended: with a quota [N] of at least 1, when a window opens for a
    client at [t1], its first [N] requests inside the window are passed
    downstream; request number [N]+1 inside the window is answered with 429
    whatever the downstream handler, which is not run, and changes nothing in
    the limiter; and a request of the client after the window boundary is
    passed downstream and leaves its counter at 1. *)
Theorem RateLimit_quota (N : Z) (next : HandlerFunc) (ip : string)
    (clients : gmap string client) (t1 : Z) (first : Context)
    (more : list (Z * Context)) (now : Z) (ctx : Context) (late : Z) (ctx' : Context) :
  (1 ≤ N)%Z →
  Z.of_nat (length ((t1, first) :: more)) = N →
  window_opens clients ip t1 →
  Forall (λ q, IP q.2 = ip ∧ (q.1 ≤ t1 + Minute)%Z) ((t1, first) :: more) →
  IP ctx = ip → (now ≤ t1 + Minute)%Z →
  IP ctx' = ip → (t1 + Minute < late)%Z →
  let served := serve N next ((t1, first) :: more) clients in
  served.2 = (λ q, next q.2) <$> ((t1, first) :: more) ∧
  RateLimitMiddleware N next now served.1 ctx =
    (served.1, AbortWithJSON 429 {["error" := VString "Too many requests"]} ctx) ∧
  (RateLimitMiddleware N next late served.1 ctx').2 = next ctx' ∧
  requests <$> (RateLimitMiddleware N next late served.1 ctx').1 !! ip = Some 1%Z.
Proof.
  intros HN Hlen Hopen Hall Hip Hnow Hip' Hlate served.
  apply Forall_cons in Hall as [[Hip1 _] Hmore]. simpl in Hip1. subst ip.
  rewrite length_cons in Hlen.
  set (c1 := {| requests := 1; resetTime := t1 + Minute |}).
  assert (∃ clients1, clients1 !! IP first = Some c1 ∧
            RateLimitMiddleware N next t1 clients first = (clients1, next first))
    as (clients1 & Hc1 & Hfirst).
  { unfold RateLimitMiddleware, window_opens in *.
    destruct (clients !! IP first) as [c|] eqn:Hc.
    - assert ((resetTime c <? t1)%Z = true) as -> by lia. cbn [requests resetTime].
      assert ((N <=? 0)%Z = false) as -> by lia.
      eexists. split; [|reflexivity]. by rewrite lookup_insert_eq.
    - eexists. split; [|reflexivity]. by rewrite lookup_insert_eq. }
  assert (served = (<[IP first := {| requests := N; resetTime := t1 + Minute |}]> clients1,
                    (λ q, next q.2) <$> ((t1, first) :: more))) as Hserved.
  { unfold served. cbn [serve]. rewrite Hfirst. cbn [fst snd].
    rewrite (serve_within_window N next (IP first) (t1 + Minute) more clients1 1 Hc1);
      [| lia | done].
    cbn [fst snd fmap list_fmap]. do 3 f_equal. lia. }
  rewrite Hserved. cbn [fst snd]. split; [done|].
  unfold RateLimitMiddleware. rewrite Hip, Hip'. rewrite lookup_insert_eq.
  cbn [requests resetTime].
  assert ((t1 + Minute <? now)%Z = false) as -> by lia.
  assert ((t1 + Minute <? late)%Z = true) as -> by lia.
  cbn [requests resetTime].
  assert ((N <=? N)%Z = true) as -> by lia.
  assert ((N <=? 0)%Z = false) as -> by lia.
  cbn [fst snd]. rewrite insert_insert_eq. split; [done|]. split; [done|].
  by rewrite lookup_insert_eq.
Qed.

(** Quota 2: two requests at times 0 and 5, a third at 7, one after the
    minute has passed. *)
Lemma RateLimit_quota_witness :
  StatusCode (fastCtx (RateLimitMiddleware 2 (answering "downstream") 7
     (serve 2 (answering "downstream") [(0%Z, visitor); (5%Z, visitor)] ∅).1 visitor).2.1)
    = 429%Z ∧
  requests <$> (RateLimitMiddleware 2 (answering "downstream") (Minute + 1)
     (serve 2 (answering "downstream") [(0%Z, visitor); (5%Z, visitor)] ∅).1 visitor).1
       !! "10.0.0.1" = Some 1%Z.
Proof.
  pose proof (RateLimit_quota 2 (answering "downstream") "10.0.0.1" ∅ 0 visitor
                [(5%Z, visitor)] 7 visitor (Minute + 1) visitor) as H.
  cbv zeta in H.
  destruct H as (_ & H429 & _ & Hone).
  - done.
  - reflexivity.
  - exact I.
  - repeat constructor; vm_compute; congruence.
  - reflexivity.
  - vm_compute; congruence.
  - reflexivity.
  - vm_compute; reflexivity.
  - split; [rewrite H429; reflexivity | exact Hone].
Defined.

(** ** The container *)

Section ContainerFacts.

Variable V : Type.
Variable W : Type.
Variable R : Type.
Variable call : R → Container V R → W → V * Container V R * W.

(** One caller that runs alone goes through [Make] in three steps. *)
Lemma step_Make (abstract : string) (st : State V W R) :
  let s1 := step call (Calling abstract) st in
  let s2 := step call s1.1 s1.2 in
  let s3 := step call s2.1 s2.2 in
  (s3.1, s3.2) = (Returned (Make call abstract st).1, (Make call abstract st).2).
Proof.
  unfold Make. cbn [step fst snd].
  destruct (instances (container st) !! canonical abstract (container st)); [done|].
  destruct (bindings (container st) !! canonical abstract (container st)) as [b|]; [|done].
  cbn [step fst snd]. by destruct (singleton b).
Qed.

(** The two ways [Make] answers without an error. *)
Lemma Make_cached (abstract : string) (st : State V W R) (instance : V) :
  instances (container st) !! canonical abstract (container st) = Some instance →
  Make call abstract st = (inl instance, st).
Proof. intros H. unfold Make. by rewrite H. Qed.

Lemma Make_resolves (abstract : string) (st : State V W R) (bind : binding R) :
  instances (container st) !! canonical abstract (container st) = None →
  bindings (container st) !! canonical abstract (container st) = Some bind →
  Make call abstract st =
    (inl (call (resolver bind) (container st) (world st)).1.1,
     {| container :=
          if singleton bind
          then store_instance (canonical abstract (container st))
                 (call (resolver bind) (container st) (world st)).1.1
                 (call (resolver bind) (container st) (world st)).1.2
          else (call (resolver bind) (container st) (world st)).1.2;
        world := (call (resolver bind) (container st) (world st)).2;
        resolved := resolved st ++ [canonical abstract (container st)] |}).
Proof. intros Hi Hb. unfold Make. by rewrite Hi, Hb. Qed.

Lemma canonical_no_alias (abstract : string) (c : Container V R) :
  aliases c !! abstract = None → canonical abstract c = abstract.
Proof. intros H. unfold canonical. by rewrite H. Qed.

(** C8: [Make] first replaces the name by what the alias map gives for it;
    if an instance is cached under that name it answers the instance, runs
    no resolver and changes nothing; if neither an instance nor a binding
    exists under that name it fails with the binding-not-found error. *)
Theorem Make_lookup_order (abstract : string) (st : State V W R) :
  (∀ instance,
     instances (container st) !! canonical abstract (container st) = Some instance →
     Make call abstract st = (inl instance, st)) ∧
  (instances (container st) !! canonical abstract (container st) = None →
   bindings (container st) !! canonical abstract (container st) = None →
   Make call abstract st =
     (inr ("binding not found: " +:+ canonical abstract (container st)), st)).
Proof.
  split.
  - intros instance H. by apply Make_cached.
  - intros Hi Hb. unfold Make. by rewrite Hi, Hb.
Qed.

(** C7, amended: for a name that is no alias and a resolver [r] that leaves
    the name alone, after [Singleton(abstract, r)] two [Make] calls in a row
    answer the same instance and the resolver runs at most once: exactly
    once, in the first call, when no instance is cached under the name, and
    not at all when one is, which both calls then answer; after
    [Bind(abstract, r)], when no instance is cached under the name, each of
    two [Make] calls in a row runs the resolver, and the two instances differ
    when the resolver constructs a new object each time. *)
Theorem Make_singleton_and_transient (abstract : string) (r : R) (c : Container V R)
    (w : W) (log : list string) :
  aliases c !! abstract = None →
  leaves_alone call r abstract →
  (let st := {| container := Singleton abstract r c; world := w; resolved := log |} in
   let m1 := Make call abstract st in
   let m2 := Make call abstract m1.2 in
   ∃ instance, m1.1 = inl instance ∧ m2.1 = inl instance ∧
     match instances c !! abstract with
     | Some cached => instance = cached ∧ resolved m1.2 = log ∧ resolved m2.2 = log
     | None =>
         instance = (call r (Singleton abstract r c) w).1.1 ∧
         resolved m1.2 = log ++ [abstract] ∧ resolved m2.2 = log ++ [abstract]
     end) ∧
  (instances c !! abstract = None →
   let st := {| container := Bind abstract r c; world := w; resolved := log |} in
   let m1 := Make call abstract st in
   let m2 := Make call abstract m1.2 in
   ∃ i1 i2, m1.1 = inl i1 ∧ m2.1 = inl i2 ∧
     resolved m1.2 = log ++ [abstract] ∧
     resolved m2.2 = log ++ [abstract; abstract] ∧
     (constructs_anew call r → i1 ≠ i2)).
Proof.
  intros Halias Hleaves. split.
  - cbv zeta.
    set (st := {| container := Singleton abstract r c; world := w; resolved := log |}).
    assert (canonical abstract (container st) = abstract) as Hcan
      by (by apply canonical_no_alias).
    destruct (instances c !! abstract) as [i|] eqn:Hi.
    + assert (Make call abstract st = (inl i, st)) as ->.
      { apply Make_cached. by rewrite Hcan. }
      cbn [fst snd].
      assert (Make call abstract st = (inl i, st)) as ->.
      { apply Make_cached. by rewrite Hcan. }
      cbn [fst snd]. by exists i.
    + rewrite (Make_resolves abstract st {| resolver := r; singleton := true |});
        [| by rewrite Hcan | rewrite Hcan; apply lookup_insert_eq].
      rewrite Hcan. cbn [fst snd resolver singleton container world resolved st].
      set (res := call r (Singleton abstract r c) w).
      destruct (Hleaves (Singleton abstract r c) w) as (Ha & _ & _). fold res in Ha.
      rewrite (Make_cached abstract _ res.1.1).
      * cbn [fst snd resolved]. by eexists.
      * cbn [container]. rewrite canonical_no_alias.
        -- cbn [store_instance instances]. apply lookup_insert_eq.
        -- cbn [store_instance aliases]. by rewrite Ha.
  - intros Hi. cbv zeta.
    set (st := {| container := Bind abstract r c; world := w; resolved := log |}).
    assert (canonical abstract (container st) = abstract) as Hcan
      by (by apply canonical_no_alias).
    rewrite (Make_resolves abstract st {| resolver := r; singleton := false |});
      [| by rewrite Hcan | rewrite Hcan; apply lookup_insert_eq].
    rewrite Hcan. cbn [fst snd resolver singleton container world resolved st].
    set (res := call r (Bind abstract r c) w).
    destruct (Hleaves (Bind abstract r c) w) as (Ha & Hin & Hb).
    fold res in Ha, Hin, Hb. cbn [Bind aliases instances bindings] in Ha, Hin, Hb.
    rewrite lookup_insert_eq in Hb.
    rewrite (Make_resolves abstract _ {| resolver := r; singleton := false |}).
    + cbn [fst snd resolver singleton container world resolved].
      rewrite canonical_no_alias by (by rewrite Ha).
      eexists _, _. split; [done|]. split; [done|]. split; [done|]. split.
      * by rewrite <- app_assoc.
      * intros Hnew Heq. apply (Hnew (Bind abstract r c) w res.1.2). fold res. done.
    + cbn [container]. rewrite canonical_no_alias by (by rewrite Ha). by rewrite Hin.
    + cbn [container]. rewrite canonical_no_alias by (by rewrite Ha). done.
Qed.

End ContainerFacts.

(** An alias [db] for [database], an instance cached under [database], and a
    name [cache] that nothing is registered for. *)
Lemma Make_lookup_order_witness :
  let st := {| container := Alias "db" "database" (Instance_ "database" 7 NewContainer);
               world := 0; resolved := [] |} in
  Make construct "db" st = (inl 7, st) ∧
  Make construct "cache" st = (inr "binding not found: cache", st).
Proof.
  intros st.
  destruct (Make_lookup_order nat nat unit construct "db" st) as [H1 _].
  destruct (Make_lookup_order nat nat unit construct "cache" st) as [_ H2].
  split; [apply H1; vm_compute; reflexivity | apply H2; vm_compute; reflexivity].
Defined.

Lemma construct_leaves_alone (abstract : string) : leaves_alone construct tt abstract.
Proof. intros c w. done. Qed.

Lemma construct_constructs_anew : constructs_anew construct tt.
Proof. intros c w c'. unfold construct. simpl. lia. Qed.

(** C7 as stated fails for a name under which an instance is cached: after
    [Instance("svc", 7)] and then [Bind("svc", r)] with a resolver that
    constructs a new object each time, two [Make] calls in a row both answer
    the cached 7 and the resolver never runs. *)
Lemma Bind_over_Instance_is_not_transient :
  let st := {| container := Bind "svc" tt (Instance_ "svc" 7 NewContainer);
               world := 0; resolved := [] |} in
  constructs_anew construct tt ∧
  (Make construct "svc" st).1 = inl 7 ∧
  (Make construct "svc" (Make construct "svc" st).2).1 = inl 7 ∧
  resolved (Make construct "svc" (Make construct "svc" st).2).2 = [].
Proof. split; [apply construct_constructs_anew | vm_compute; done]. Qed.

(** A singleton and a transient binding of the constructing resolver. *)
Lemma Make_singleton_and_transient_witness :
  (let st := {| container := Singleton "svc" tt NewContainer; world := 0; resolved := [] |} in
   ∃ instance, (Make construct "svc" st).1 = inl instance ∧
     (Make construct "svc" (Make construct "svc" st).2).1 = inl instance ∧
     resolved (Make construct "svc" (Make construct "svc" st).2).2 = ["svc"]) ∧
  (let st := {| container := Bind "svc" tt NewContainer; world := 0; resolved := [] |} in
   ∃ i1 i2, (Make construct "svc" st).1 = inl i1 ∧
     (Make construct "svc" (Make construct "svc" st).2).1 = inl i2 ∧ i1 ≠ i2 ∧
     resolved (Make construct "svc" (Make construct "svc" st).2).2 = ["svc"; "svc"]).
Proof.
  destruct (Make_singleton_and_transient nat nat unit construct "svc" tt NewContainer 0 [])
    as [Hs Ht]; [vm_compute; reflexivity | apply construct_leaves_alone |].
  split.
  - destruct Hs as (i & H1 & H2 & _ & _ & Hlog). exists i. auto.
  - destruct Ht as (i1 & i2 & H1 & H2 & _ & Hlog & Hne); [vm_compute; reflexivity|].
    exists i1, i2. split; [exact H1|]. split; [exact H2|].
    split; [apply Hne, construct_constructs_anew | exact Hlog].
Defined.

(** C1, on the code: two callers of [Make] on one singleton that is not
    resolved yet, scheduled so that both finish the read-locked check before
    either stores. The resolver runs twice, the callers get two different
    instances, and the second store replaces the first. *)
Theorem concurrent_Make_resolves_twice :
  two_callers.1 = [Returned (inl 0); Returned (inl 1)] ∧
  resolved two_callers.2 = ["svc"; "svc"] ∧
  instances (container two_callers.2) !! "svc" = Some 1.
Proof. vm_compute. done. Qed.

(** ** The container: instances, aliases, forgetting *)

Section ContainerMoreFacts.

Variable V : Type.
Variable W : Type.
Variable R : Type.
Variable call : R → Container V R → W → V * Container V R * W.

Lemma canonical_alias (alias abstract : string) (c : Container V R) :
  aliases c !! alias = Some abstract → canonical alias c = abstract.
Proof. intros H. unfold canonical. by rewrite H. Qed.

(** [Instance] bypasses resolution: after [Instance(abstract, v)], for a
    name that is no alias, [Make] answers [v], runs no resolver and leaves
    the container as it is, whatever binding the name has. *)
Theorem Instance_then_Make (abstract : string) (v : V) (c : Container V R) (w : W)
    (log : list string) :
  aliases c !! abstract = None →
  Make call abstract {| container := Instance_ abstract v c; world := w; resolved := log |}
  = (inl v, {| container := Instance_ abstract v c; world := w; resolved := log |}).
Proof.
  intros Ha. apply Make_cached. cbn [container].
  rewrite canonical_no_alias by done. apply lookup_insert_eq.
Qed.

(** Registering a name again does not drop its cached instance: with an
    instance cached under a name that is no alias, [Make] after
    [Bind(abstract, r)] or [Singleton(abstract, r)] still answers the cached
    instance and the new resolver does not run. *)
Theorem rebinding_keeps_cached_instance (abstract : string) (v : V) (r : R)
    (c : Container V R) (w : W) (log : list string) :
  aliases c !! abstract = None →
  instances c !! abstract = Some v →
  (Make call abstract {| container := Bind abstract r c; world := w; resolved := log |}).1
    = inl v ∧
  (Make call abstract {| container := Singleton abstract r c; world := w; resolved := log |}).1
    = inl v ∧
  resolved (Make call abstract
              {| container := Bind abstract r c; world := w; resolved := log |}).2 = log ∧
  resolved (Make call abstract
              {| container := Singleton abstract r c; world := w; resolved := log |}).2 = log.
Proof.
  intros Ha Hi.
  rewrite (Make_cached _ _ _ call abstract
             {| container := Bind abstract r c; world := w; resolved := log |} v).
  2:{ cbn [container]. by rewrite canonical_no_alias. }
  rewrite (Make_cached _ _ _ call abstract
             {| container := Singleton abstract r c; world := w; resolved := log |} v).
  2:{ cbn [container]. by rewrite canonical_no_alias. }
  done.
Qed.

(** [Forget] removes the binding and the cached instance of a name but no
    alias: for a name that is no alias itself, afterwards the name is not
    bound, [Make] of it fails, and [Make] of an alias that points to it
    fails with the error naming the forgotten name. *)
Theorem Forget_then_Make (abstract : string) (c : Container V R) (w : W)
    (log : list string) :
  aliases c !! abstract = None →
  Bound abstract (Forget abstract c) = false ∧
  Make call abstract {| container := Forget abstract c; world := w; resolved := log |}
  = (inr ("binding not found: " +:+ abstract),
     {| container := Forget abstract c; world := w; resolved := log |}) ∧
  (∀ alias,
     aliases c !! alias = Some abstract →
     Make call alias {| container := Forget abstract c; world := w; resolved := log |}
     = (inr ("binding not found: " +:+ abstract),
        {| container := Forget abstract c; world := w; resolved := log |})).
Proof.
  intros Ha. split.
  { unfold Bound, Forget. cbn [bindings instances]. by rewrite !lookup_delete_eq. }
  split.
  - unfold Make. cbn [container]. rewrite canonical_no_alias by done.
    unfold Forget. cbn [bindings instances]. by rewrite !lookup_delete_eq.
  - intros alias Hal. unfold Make. cbn [container].
    rewrite (canonical_alias alias abstract) by done.
    unfold Forget. cbn [bindings instances]. by rewrite !lookup_delete_eq.
Qed.

(** [Bound] does not follow aliases: for an alias that has no entry of its
    own and points to a name with a cached instance, [Bound] answers false
    although [Make] of the alias succeeds. *)
Theorem Bound_ignores_aliases (alias abstract : string) (v : V) (st : State V W R) :
  aliases (container st) !! alias = Some abstract →
  bindings (container st) !! alias = None →
  instances (container st) !! alias = None →
  instances (container st) !! abstract = Some v →
  Bound alias (container st) = false ∧ Make call alias st = (inl v, st).
Proof.
  intros Hal Hb Hi Hv. split.
  - unfold Bound. by rewrite Hb, Hi.
  - apply Make_cached. by rewrite (canonical_alias alias abstract).
Qed.

(** Aliases are followed one step only: when [alias] points to [abstract]
    and nothing is cached or bound under [abstract], [Make(alias)] fails with
    the error naming [abstract], whatever [abstract] is itself an alias of. *)
Theorem alias_is_followed_once (alias abstract : string) (st : State V W R) :
  aliases (container st) !! alias = Some abstract →
  instances (container st) !! abstract = None →
  bindings (container st) !! abstract = None →
  Make call alias st = (inr ("binding not found: " +:+ abstract), st).
Proof.
  intros Hal Hi Hb. unfold Make. rewrite (canonical_alias alias abstract) by done.
  by rewrite Hi, Hb.
Qed.

(** After [Flush] nothing is bound and every [Make] fails, with the error
    naming the name as it was given (the aliases are gone too). *)
Theorem Flush_forgets_everything (abstract : string) (c : Container V R) (w : W)
    (log : list string) :
  Bound abstract (Flush c) = false ∧
  Make call abstract {| container := Flush c; world := w; resolved := log |}
  = (inr ("binding not found: " +:+ abstract),
     {| container := Flush c; world := w; resolved := log |}) ∧
  (MustMake call abstract {| container := Flush c; world := w; resolved := log |}).1 = None.
Proof.
  assert (Make call abstract {| container := Flush c; world := w; resolved := log |}
          = (inr ("binding not found: " +:+ abstract),
             {| container := Flush c; world := w; resolved := log |})) as HM.
  { unfold Make, canonical, Flush, NewContainer. cbn [container aliases instances bindings].
    by rewrite !lookup_empty. }
  split; [by unfold Bound, Flush, NewContainer; cbn; rewrite !lookup_empty|].
  split; [exact HM|]. unfold MustMake. by rewrite HM.
Qed.

(** A caller that is not interrupted behaves as [Make]. *)
Lemma alone_Make (abstract : string) (st : State V W R) :
  alone call abstract st = (Returned (Make call abstract st).1, (Make call abstract st).2).
Proof.
  unfold alone, Make. cbn [step fst snd].
  destruct (instances (container st) !! canonical abstract (container st)); [done|].
  destruct (bindings (container st) !! canonical abstract (container st)) as [b|]; [|done].
  cbn [step fst snd]. by destruct (singleton b).
Qed.

(** Two [Make] calls in a row on a singleton. *)
Lemma Make_twice_singleton (abstract : string) (r : R) (st : State V W R) :
  aliases (container st) !! abstract = None →
  bindings (container st) !! abstract = Some {| resolver := r; singleton := true |} →
  leaves_alone call r abstract →
  ∃ instance,
    (Make call abstract st).1 = inl instance ∧
    (Make call abstract (Make call abstract st).2).1 = inl instance ∧
    (resolved (Make call abstract (Make call abstract st).2).2 = resolved st ∨
     resolved (Make call abstract (Make call abstract st).2).2 = resolved st ++ [abstract]).
Proof.
  intros Ha Hb Hleaves.
  assert (canonical abstract (container st) = abstract) as Hcan
    by (by apply canonical_no_alias).
  destruct (instances (container st) !! abstract) as [i|] eqn:Hi.
  - assert (Make call abstract st = (inl i, st)) as HM
      by (apply Make_cached; by rewrite Hcan).
    rewrite HM. cbn [fst snd]. rewrite HM. cbn [fst snd]. exists i. auto.
  - rewrite (Make_resolves _ _ _ call abstract st {| resolver := r; singleton := true |});
      [| by rewrite Hcan | by rewrite Hcan].
    rewrite Hcan. cbn [fst snd resolver singleton].
    destruct (Hleaves (container st) (world st)) as (Hal & _ & _).
    set (res := call r (container st) (world st)) in *.
    rewrite (Make_cached _ _ _ call abstract _ res.1.1).
    + cbn [fst snd resolved]. eexists. auto.
    + cbn [container]. rewrite canonical_no_alias.
      * cbn [store_instance instances]. apply lookup_insert_eq.
      * cbn [store_instance aliases]. by rewrite Hal.
Qed.

Lemma schedule_app (o1 o2 : list nat) (callers : list (caller V R)) (st : State V W R) :
  schedule call (o1 ++ o2) callers st
  = schedule call o2 (schedule call o1 callers st).1 (schedule call o1 callers st).2.
Proof.
  revert callers st. induction o1 as [|i o1 IH]; intros callers st; [done|].
  cbn [app schedule]. destruct (callers !! i); apply IH.
Qed.

Lemma schedule_first_alone (abstract : string) (rest : list (caller V R)) (st : State V W R) :
  schedule call [0; 0; 0] (Calling abstract :: rest) st
  = ((alone call abstract st).1 :: rest, (alone call abstract st).2).
Proof. reflexivity. Qed.

Lemma schedule_second_alone (abstract : string) (t : caller V R) (rest : list (caller V R))
    (st : State V W R) :
  schedule call [1; 1; 1] (t :: Calling abstract :: rest) st
  = (t :: (alone call abstract st).1 :: rest, (alone call abstract st).2).
Proof. reflexivity. Qed.

(** Callers of [Make] that do not overlap share one instance: for a name
    that is no alias, bound as a singleton whose resolver leaves the name
    alone, when the second caller starts after the first has returned, both
    get the same instance and the resolver has run at most once. *)
Theorem serial_callers_share_the_instance (abstract : string) (r : R) (st : State V W R) :
  aliases (container st) !! abstract = None →
  bindings (container st) !! abstract = Some {| resolver := r; singleton := true |} →
  leaves_alone call r abstract →
  ∃ instance,
    (schedule call [0; 0; 0; 1; 1; 1] [Calling abstract; Calling abstract] st).1
      = [Returned (inl instance); Returned (inl instance)] ∧
    (resolved (schedule call [0; 0; 0; 1; 1; 1] [Calling abstract; Calling abstract] st).2
       = resolved st ∨
     resolved (schedule call [0; 0; 0; 1; 1; 1] [Calling abstract; Calling abstract] st).2
       = resolved st ++ [abstract]).
Proof.
  intros Ha Hb Hleaves.
  destruct (Make_twice_singleton abstract r st Ha Hb Hleaves) as (i & H1 & H2 & Hlog).
  change [0; 0; 0; 1; 1; 1] with ([0; 0; 0] ++ [1; 1; 1]).
  rewrite schedule_app, schedule_first_alone. cbn [fst snd].
  rewrite schedule_second_alone, !alone_Make. cbn [fst snd].
  rewrite H1, H2. exists i. done.
Qed.

End ContainerMoreFacts.

Lemma Instance_then_Make_witness :
  (Make construct "svc"
     {| container := Instance_ "svc" 7 (Singleton "svc" tt NewContainer);
        world := 0; resolved := [] |}).1 = inl 7.
Proof.
  rewrite (Instance_then_Make nat nat unit construct "svc" 7
             (Singleton "svc" tt NewContainer) 0 []); reflexivity.
Defined.

Lemma rebinding_keeps_cached_instance_witness :
  (Make construct "svc"
     {| container := Bind "svc" tt (Instance_ "svc" 7 NewContainer);
        world := 0; resolved := [] |}).1 = inl 7.
Proof.
  destruct (rebinding_keeps_cached_instance nat nat unit construct "svc" 7 tt
              (Instance_ "svc" 7 NewContainer) 0 []) as (H & _);
    [reflexivity | reflexivity | exact H].
Defined.

Lemma Forget_then_Make_witness :
  Bound "svc" aliased = true ∧
  Bound "svc" (Forget "svc" aliased) = false ∧
  (Make construct "svc"
     {| container := Forget "svc" aliased; world := 0; resolved := [] |}).1
  = inr "binding not found: svc" ∧
  (Make construct "service"
     {| container := Forget "svc" aliased; world := 0; resolved := [] |}).1
  = inr "binding not found: svc".
Proof.
  destruct (Forget_then_Make nat nat unit construct "svc" aliased 0 [])
    as (H1 & H2 & H3); [reflexivity|].
  split; [reflexivity|]. split; [exact H1|]. split; [rewrite H2; reflexivity|].
  rewrite (H3 "service"); reflexivity.
Defined.

Lemma Bound_ignores_aliases_witness :
  Bound "service" aliased = false ∧
  (Make construct "service" {| container := aliased; world := 0; resolved := [] |}).1
  = inl 7.
Proof.
  destruct (Bound_ignores_aliases nat nat unit construct "service" "svc" 7
              {| container := aliased; world := 0; resolved := [] |}) as (H1 & H2);
    [reflexivity | reflexivity | reflexivity | reflexivity |].
  split; [exact H1 | rewrite H2; reflexivity].
Defined.

Lemma alias_is_followed_once_witness :
  (Make construct "a" {| container := chained; world := 0; resolved := [] |}).1
  = inr "binding not found: b" ∧
  (Make construct "b" {| container := chained; world := 0; resolved := [] |}).1 = inl 7.
Proof.
  rewrite (alias_is_followed_once nat nat unit construct "a" "b"
             {| container := chained; world := 0; resolved := [] |});
    [| reflexivity | reflexivity | reflexivity].
  split; reflexivity.
Defined.

Lemma serial_callers_share_the_instance_witness :
  ∃ instance,
    (schedule construct [0; 0; 0; 1; 1; 1] [Calling "svc"; Calling "svc"]
       {| container := Singleton "svc" tt NewContainer; world := 0; resolved := [] |}).1
    = [Returned (inl instance); Returned (inl instance)].
Proof.
  destruct (serial_callers_share_the_instance nat nat unit construct "svc" tt
              {| container := Singleton "svc" tt NewContainer; world := 0; resolved := [] |})
    as (i & H & _); [reflexivity | reflexivity | apply construct_leaves_alone |].
  exists i. exact H.
Defined.

(** ** Registration and the order of dispatch *)

Lemma compile_keeps (route compiled : Route) :
  compile route = Some compiled →
  method compiled = method route ∧ path compiled = path route ∧
  handler compiled = handler route ∧ middleware compiled = middleware route ∧
  name compiled = name route.
Proof.
  unfold compile. intros H.
  destruct (Regexp.MustCompile _) as [re|]; [|done].
  cbn in H. by injection H as <-.
Qed.

(** What a successful [Add] does to the store. *)
Lemma Add_Some (r : nat) (m p : string) (h : HandlerFunc) (rs rs' : Routers)
    (ref : string * nat) :
  Add r m p h rs = Some (ref, rs') →
  ∃ node rt,
    routers rs !! r = Some node ∧
    method rt = Strings.ToUpper m ∧ path rt = prefix node +:+ p ∧
    handler rt = h ∧ middleware rt = [] ∧ name rt = "" ∧
    ref = (Strings.ToUpper m, length (default [] (routes rs !! Strings.ToUpper m))) ∧
    routes rs' = <[Strings.ToUpper m := default [] (routes rs !! Strings.ToUpper m) ++ [rt]]>
                   (routes rs) ∧
    routers rs' = routers rs.
Proof.
  unfold Add. intros H.
  destruct (routers rs !! r) as [node|]; [|done]. cbn in H.
  destruct (compile _) as [rt|] eqn:Hc; [|done]. cbn in H.
  apply compile_keeps in Hc as (Hm & Hp & Hh & Hmw & Hn). cbn in Hm, Hp, Hh, Hmw, Hn.
  injection H as <- <-. exists node, rt. rewrite Hm. done.
Qed.

Lemma Add_effect (r : nat) (m p : string) (h : HandlerFunc) (rs rs' : Routers)
    (ref : string * nat) :
  Add r m p h rs = Some (ref, rs') →
  (∃ node rt, routers rs !! r = Some node ∧ route_at ref rs' = Some rt ∧
     method rt = Strings.ToUpper m ∧ path rt = prefix node +:+ p ∧
     handler rt = h ∧ middleware rt = []) ∧
  route_at ref rs = None ∧
  (∀ old rt, route_at old rs = Some rt → route_at old rs' = Some rt) ∧
  routers rs' = routers rs.
Proof.
  intros H. apply Add_Some in H
    as (node & rt & Hnode & Hm & Hp & Hh & Hmw & _ & -> & Hroutes & Hrouters).
  set (M := Strings.ToUpper m) in *.
  set (bucket := default [] (routes rs !! M)) in *.
  split; [|split; [|split]]; [| | |done].
  - exists node, rt. unfold route_at. cbn [fst snd]. rewrite Hroutes, lookup_insert_eq.
    cbn. rewrite lookup_app_r by done. rewrite Nat.sub_diag. done.
  - unfold route_at. cbn [fst snd]. unfold bucket.
    destruct (routes rs !! M) as [b|]; [|done]. cbn. by apply lookup_ge_None.
  - intros [om oi] ort. unfold route_at. cbn [fst snd]. rewrite Hroutes.
    destruct (decide (M = om)) as [<-|Hne].
    + rewrite lookup_insert_eq. unfold bucket.
      destruct (routes rs !! M) as [b|]; [|done]. cbn.
      intros Hl. by apply lookup_app_l_Some.
    + by rewrite lookup_insert_ne.
Qed.

(** [add_each] over any list of methods: one new route for each method, in
    the order of the list, and every older route kept. *)
Lemma add_each_effect (r : nat) (methods : list string) (p : string) (h : HandlerFunc)
    (rs rs' : Routers) (refs : list (string * nat)) :
  add_each r methods p h rs = Some (refs, rs') →
  refs.*1 = Strings.ToUpper <$> methods ∧
  Forall (λ ref, route_at ref rs = None ∧
            ∃ node rt, routers rs !! r = Some node ∧ route_at ref rs' = Some rt ∧
              method rt = ref.1 ∧ path rt = prefix node +:+ p ∧
              handler rt = h ∧ middleware rt = []) refs ∧
  (∀ old rt, route_at old rs = Some rt → route_at old rs' = Some rt) ∧
  routers rs' = routers rs.
Proof.
  revert rs rs' refs. induction methods as [|m methods IH]; intros rs rs' refs H.
  - cbn in H. injection H as <- <-. done.
  - cbn [add_each] in H.
    destruct (Add r m p h rs) as [[ref rs1]|] eqn:HA; [|done]. cbn in H.
    destruct (add_each r methods p h rs1) as [[refs' rs2]|] eqn:HE; [|done].
    cbn in H. injection H as <- <-.
    assert (ref.1 = Strings.ToUpper m) as Hfst.
    { pose proof HA as Href.
      apply Add_Some in Href as (? & ? & _ & _ & _ & _ & _ & _ & -> & _ & _). done. }
    apply Add_effect in HA as ((node & rt & Hn & Hr & Hm & Hp & Hh & Hmw) & Hnew & Hkeep & Hrs).
    apply IH in HE as (Hnames & Hall & Hkeep' & Hrs').
    split; [|split; [|split]].
    + cbn. by rewrite Hnames, Hfst.
    + constructor.
      * split; [done|]. exists node, rt. rewrite (Hkeep' _ _ Hr), Hfst. done.
      * eapply Forall_impl; [exact Hall|]. intros ref' [Hnone (node' & rt' & Hn' & Hrest)].
        split.
        -- destruct (route_at ref' rs) as [old|] eqn:Hold; [|done].
           apply Hkeep in Hold. by rewrite Hold in Hnone.
        -- exists node', rt'. split; [by rewrite <- Hrs|done].
    + intros old ort Hold. by apply Hkeep', Hkeep.
    + by rewrite Hrs'.
Qed.

(** Routes are append-only: a successful [Add] compiles the route with
    the upper-cased method, the router's prefix before its path, the given
    handler and no middleware, and puts it at the end of the bucket of the
    upper-cased method, which is the only bucket that changes; the answer
    names that bucket and that position; every route that was registered
    before keeps its bucket and position, and no router changes. *)
Theorem Add_appends (r : nat) (m p : string) (h : HandlerFunc) (rs rs' : Routers)
    (ref : string * nat) :
  Add r m p h rs = Some (ref, rs') →
  ∃ node rt,
    routers rs !! r = Some node ∧
    compile (declared (Strings.ToUpper m) (prefix node +:+ p) h) = Some rt ∧
    method rt = Strings.ToUpper m ∧ path rt = prefix node +:+ p ∧
    handler rt = h ∧ middleware rt = [] ∧
    ref = (Strings.ToUpper m, length (default [] (routes rs !! Strings.ToUpper m))) ∧
    routes rs' !! Strings.ToUpper m
      = Some (default [] (routes rs !! Strings.ToUpper m) ++ [rt]) ∧
    (∀ m', m' ≠ Strings.ToUpper m → routes rs' !! m' = routes rs !! m') ∧
    route_at ref rs' = Some rt ∧
    route_at ref rs = None ∧
    (∀ old rt', route_at old rs = Some rt' → route_at old rs' = Some rt') ∧
    routers rs' = routers rs.
Proof.
  intros H.
  destruct (Add_effect r m p h rs rs' ref H) as (_ & Hnew & Hkeep & Hrouters).
  unfold Add in H.
  destruct (routers rs !! r) as [node|]; [|done]. cbn in H.
  destruct (compile _) as [rt|] eqn:Hc; [|done]. cbn in H.
  pose proof Hc as Hk.
  apply compile_keeps in Hk as (Hm & Hp & Hh & Hmw & _). cbn in Hm, Hp, Hh, Hmw.
  rewrite Hm in H. injection H as <- <-.
  exists node, rt. cbn [routes].
  split; [done|]. split; [exact Hc|].
  split; [done|]. split; [done|]. split; [done|]. split; [done|]. split; [done|].
  split; [by rewrite lookup_insert_eq|].
  split; [by intros m' Hne; rewrite lookup_insert_ne|].
  split; [|done].
  unfold route_at. cbn [fst snd routes]. rewrite lookup_insert_eq. cbn.
  by rewrite lookup_app_r, Nat.sub_diag.
Qed.

(** [/users/me] registered after [/users/{id}] is the second route of the
    [GET] bucket. *)
Lemma Add_appends_witness :
  (λ bucket : list Route, path <$> bucket) <$> (routes users_routes !! "GET")
  = Some ["/users/{id}"; "/users/me"] ∧
  routes users_routes !! "POST" = None.
Proof.
  destruct (Add_appends 0 "get" "/users/me" (answering "me")
              (default NewRouter (snd <$> Add 0 "GET" "/users/{id}" (answering "show") NewRouter))
              users_routes ("GET", 1))
    as (node & rt & Hn & _ & _ & Hp & _ & _ & _ & Hb & Hother & _); [vm_compute; reflexivity|].
  split.
  - change (Strings.ToUpper "get") with "GET" in Hb. rewrite Hb.
    cbn [fmap option_fmap option_map]. rewrite fmap_app.
    change (path <$> [rt]) with [path rt].
    rewrite Hp. injection Hn as <-. reflexivity.
  - rewrite (Hother "POST"); [reflexivity | discriminate].
Defined.

(** First match wins, in registration order: when two routes are registered
    one after the other under the same method, no route registered earlier
    under that method matches the request path and the first of the two
    does, [Handle] binds the parameters that route extracts and runs its
    handler (inside the middleware of the router [Handle] is called on),
    whether or not the second route matches too. *)
Theorem Handle_first_registered (r : nat) (rs rs1 rs2 : Routers) (m p1 p2 : string)
    (h1 h2 : HandlerFunc) (ref1 ref2 : string * nat) (rt1 : Route)
    (ps : gmap string string) (ctx : Context) :
  Add r m p1 h1 rs = Some (ref1, rs1) →
  Add r m p2 h2 rs1 = Some (ref2, rs2) →
  Method (fastCtx ctx) = Strings.ToUpper m →
  Forall (λ rt, (Match rt (Path (fastCtx ctx))).1 = false)
         (default [] (routes rs !! Strings.ToUpper m)) →
  route_at ref1 rs2 = Some rt1 →
  Match rt1 (Path (fastCtx ctx)) = (true, ps) →
  Handle r rs2 ctx =
    wrap (default [] (router_middleware <$> routers rs2 !! r)) h1
      {| fastCtx := fastCtx ctx; params := ps; route := Some ref1; store := store ctx |}.
Proof.
  intros H1 H2 Hm Hearlier Hrt1 Hmatch.
  apply Add_Some in H1
    as (node1 & a1 & _ & _ & _ & Hh1 & Hmw1 & _ & -> & Hroutes1 & Hrouters1).
  apply Add_Some in H2
    as (node2 & a2 & _ & _ & _ & _ & _ & _ & -> & Hroutes2 & Hrouters2).
  set (M := Strings.ToUpper m) in *.
  set (bucket := default [] (routes rs !! M)) in *.
  assert (routes rs1 !! M = Some (bucket ++ [a1])) as Hb1
    by (by rewrite Hroutes1, lookup_insert_eq).
  rewrite Hb1 in Hroutes2. cbn [default] in Hroutes2.
  assert (routes rs2 !! M = Some ((bucket ++ [a1]) ++ [a2])) as Hb2
    by (by rewrite Hroutes2, lookup_insert_eq).
  assert (rt1 = a1) as ->.
  { unfold route_at in Hrt1. cbn [fst snd] in Hrt1. rewrite Hb2 in Hrt1. cbn in Hrt1.
    rewrite <- app_assoc, lookup_app_r, Nat.sub_diag in Hrt1 by done.
    by injection Hrt1. }
  rewrite (Handle_found r rs2 ctx ((bucket ++ [a1]) ++ [a2]) (length bucket) a1 ps).
  - rewrite Hmw1, app_nil_r, Hh1, Hm. done.
  - by rewrite Hm.
  - rewrite <- app_assoc. cbn [app].
    rewrite (first_match_app bucket [a2] a1 0 _ ps); done.
Qed.

(** [/users/{id}] registered before [/users/me]: [GET /users/me] is served
    by the first, with [id] bound to [me]. *)
Lemma Handle_first_registered_witness :
  trace (Handle 0 users_routes (NewContext "GET" "/users/me" "10.0.0.1" ∅)).1
    = VStrings ["show"] ∧
  params (Handle 0 users_routes (NewContext "GET" "/users/me" "10.0.0.1" ∅)).1 !! "id"
    = Some "me".
Proof.
  pose proof (Handle_first_registered 0 NewRouter
    (default NewRouter (snd <$> Add 0 "GET" "/users/{id}" (answering "show") NewRouter))
    users_routes "GET" "/users/{id}" "/users/me" (answering "show") (answering "me")
    ("GET", 0) ("GET", 1)
    (default (Build_Route "" "" (answering "") [] "" (Regexp.Build_Regexp []) [])
       (route_at ("GET", 0) users_routes))
    {["id" := "me"]} (NewContext "GET" "/users/me" "10.0.0.1" ∅)) as H.
  rewrite H.
  - split; vm_compute; reflexivity.
  - vm_compute; reflexivity.
  - vm_compute; reflexivity.
  - reflexivity.
  - vm_compute; constructor.
  - vm_compute; reflexivity.
  - vm_compute; reflexivity.
Defined.

(** [Any] registers the handler once under each of the seven methods, in
    the order of its list, each time as a new route with the router's prefix
    before the path and no middleware; every route that was registered
    before is kept, and no router changes. *)
Theorem Any_registers_every_method (a : Application) (p : string) (h : HandlerFunc)
    (rs rs' : Routers) (refs : list (string * nat)) :
  Any a p h rs = Some (refs, rs') →
  refs.*1 = ["GET"; "POST"; "PUT"; "DELETE"; "PATCH"; "OPTIONS"; "HEAD"] ∧
  Forall (λ ref, route_at ref rs = None ∧
            ∃ node rt, routers rs !! router a = Some node ∧ route_at ref rs' = Some rt ∧
              method rt = ref.1 ∧ path rt = prefix node +:+ p ∧
              handler rt = h ∧ middleware rt = []) refs ∧
  (∀ old rt, route_at old rs = Some rt → route_at old rs' = Some rt) ∧
  routers rs' = routers rs.
Proof. intros H. by apply add_each_effect in H. Qed.

(** [/ping] on a new router. *)
Lemma Any_registers_every_method_witness :
  (default [] (fst <$> pinged)).*1
  = ["GET"; "POST"; "PUT"; "DELETE"; "PATCH"; "OPTIONS"; "HEAD"].
Proof.
  apply (Any_registers_every_method {| router := 0; app_middleware := [] |} "/ping"
           (λ c, (c, None)) NewRouter (default NewRouter (snd <$> pinged))).
  vm_compute. reflexivity.
Defined.

(** ** The middleware pipeline *)

Lemma notes_app (e1 e2 : list string) (c : Context) :
  notes (e1 ++ e2) c = notes e2 (notes e1 c).
Proof. unfold notes. apply foldl_app. Qed.

Lemma log_of_note (entry : string) (c : Context) :
  log_of (note entry c) = log_of c ++ [entry].
Proof.
  unfold log_of, note, Context_Get, Context_Set. cbn [store].
  rewrite lookup_insert_eq. cbn. by destruct (default VNil (store c !! "log")).
Qed.

Lemma log_of_notes (entries : list string) (c : Context) :
  log_of (notes entries c) = log_of c ++ entries.
Proof.
  revert c. induction entries as [|e entries IH]; intros c.
  - by rewrite app_nil_r.
  - change (notes (e :: entries) c) with (notes entries (note e c)).
    rewrite IH, log_of_note, <- app_assoc. done.
Qed.

Lemma log_of_store (f : RequestCtx) (ps : gmap string string) (r : option (string * nat))
    (c : Context) :
  log_of {| fastCtx := f; params := ps; route := r; store := store c |} = log_of c.
Proof. reflexivity. Qed.

Lemma fastCtx_notes (entries : list string) (c : Context) :
  fastCtx (notes entries c) = fastCtx c.
Proof.
  revert c. induction entries as [|e entries IH]; intros c; [done|].
  change (notes (e :: entries) c) with (notes entries (note e c)). by rewrite IH.
Qed.

Lemma wrap_tracing (names : list string) (h : HandlerFunc) (c : Context) :
  wrap (tracing <$> names) h c
  = (notes (after (reverse names)) (h (notes (before names) c)).1,
     (h (notes (before names) c)).2).
Proof.
  revert c. induction names as [|n names IH]; intros c.
  - cbn. by destruct (h c).
  - cbn [fmap list_fmap wrap foldr]. unfold tracing at 1. cbn [fst snd].
    change (foldr (λ m next, m next) h (tracing <$> names)) with (wrap (tracing <$> names) h).
    rewrite IH. cbn [fst snd].
    rewrite reverse_cons. unfold after. rewrite fmap_app. cbn [fmap list_fmap].
    rewrite notes_app. done.
Qed.

(** Middleware nest in list order: around any handler, a list of tracing
    middleware writes its before-entries first to last, then the handler
    runs, then the after-entries are written last to first; the handler's
    error comes back unchanged. *)
Theorem wrap_nests_in_order (names : list string) (h : HandlerFunc) (c : Context) :
  wrap (tracing <$> names) h c
  = (notes (after (reverse names)) (h (notes (before names) c)).1,
     (h (notes (before names) c)).2).
Proof. apply wrap_tracing. Qed.

(** The order of a whole request: with tracing middleware everywhere, a
    request whose route is found writes the global middleware's entries
    first, then those of the router [Handle] is called on, then the route's
    own, then the handler's, and unwinds in the reverse order. *)
Theorem dispatch_order (a : Application) (rs : Routers) (ctx : Context)
    (globals own mine : list string) (h : string) (node : Router)
    (bucket : list Route) (i : nat) (rt : Route) (ps : gmap string string) :
  app_middleware a = tracing <$> globals →
  routers rs !! router a = Some node →
  router_middleware node = tracing <$> own →
  routes rs !! Method (fastCtx ctx) = Some bucket →
  first_match bucket 0 (Path (fastCtx ctx)) = Some (i, rt, ps) →
  middleware rt = tracing <$> mine →
  handler rt = answering h →
  log_of (buildHandler a rs ctx)
  = log_of ctx ++ before globals ++ before own ++ before mine ++ [h]
      ++ after (reverse mine) ++ after (reverse own) ++ after (reverse globals).
Proof.
  intros Ha Hnode Hown Hb Hfm Hmine Hh.
  unfold buildHandler. rewrite Ha, wrap_tracing. cbn [fst].
  rewrite (Handle_found (router a) rs _ bucket i rt ps);
    [| by rewrite fastCtx_notes | by rewrite fastCtx_notes].
  rewrite Hnode. cbn [fmap option_fmap option_map default]. rewrite Hown, Hmine, Hh.
  unfold id. rewrite <- fmap_app, wrap_tracing. cbn [fst].
  rewrite !log_of_notes. unfold answering. cbn [fst].
  rewrite log_of_note, log_of_notes, log_of_store, log_of_notes.
  rewrite reverse_app. unfold before, after. rewrite !fmap_app, <- !app_assoc. done.
Qed.

Lemma dispatch_order_witness :
  log_of (buildHandler grouped_app layered_routes (NewContext "GET" "/users" "10.0.0.1" ∅))
  = ["A-before"; "B-before"; "R-before"; "index"; "R-after"; "B-after"; "A-after"].
Proof.
  rewrite (dispatch_order grouped_app layered_routes (NewContext "GET" "/users" "10.0.0.1" ∅)
             ["A"] ["B"] ["R"] "index"
             {| router_middleware := [tracing "B"]; prefix := ""; parent := None |}
             (default [] (routes layered_routes !! "GET")) 0
             (default (Build_Route "" "" (answering "") [] "" (Regexp.Build_Regexp []) [])
                (route_at ("GET", 0) layered_routes)) ∅).
  - reflexivity.
  - reflexivity.
  - reflexivity.
  - reflexivity.
  - reflexivity.
  - reflexivity.
  - reflexivity.
  - reflexivity.
Defined.

(** The group of [grouped_routes] is router 1: more middleware on it
    changes nothing for a request served through the root. *)
Lemma Handle_other_router_witness :
  trace (Handle 0 (Router_Middleware 1 [tracing "G2"] (default NewRouter grouped_routes))
           (NewContext "GET" "/api/x" "10.0.0.1" ∅)).1
  = VStrings ["R-before"; "H"; "R-after"].
Proof.
  rewrite (Handle_other_router 0 1 [tracing "G2"] (default NewRouter grouped_routes)
             (NewContext "GET" "/api/x" "10.0.0.1" ∅)); [reflexivity | discriminate].
Defined.

(** ** Compiling a template *)

Lemma app_cons (c : ascii) (s t : string) : String c s +:+ t = String c (s +:+ t).
Proof. reflexivity. Qed.

Lemma app_empty_l (s : string) : "" +:+ s = s.
Proof. reflexivity. Qed.

Lemma app_empty_r (s : string) : s +:+ "" = s.
Proof. induction s as [|c s IH]; [done|]. by rewrite app_cons, IH. Qed.

Lemma string_app_assoc (a b c : string) : (a +:+ b) +:+ c = a +:+ b +:+ c.
Proof. induction a as [|x a IH]; [done|]. by rewrite !app_cons, IH. Qed.

Lemma length_app (a b : string) : String.length (a +:+ b) = String.length a + String.length b.
Proof. induction a as [|x a IH]; [done|]. rewrite app_cons. cbn. by rewrite IH. Qed.

Lemma substring_app (a b : string) : String.substring 0 (String.length a) (a +:+ b) = a.
Proof. induction a as [|x a IH]; [by destruct b|]. rewrite app_cons. cbn. by rewrite IH. Qed.

Lemma get_app (a : string) (c : ascii) (b : string) :
  String.get (String.length a) (a +:+ String c b) = Some c.
Proof. induction a as [|x a IH]; [done|]. rewrite app_cons. cbn. exact IH. Qed.

Lemma get_app_S (a : string) (c d : ascii) (b : string) :
  String.get (S (String.length a)) (a +:+ String c (String d b)) = Some d.
Proof. induction a as [|x a IH]; [done|]. rewrite app_cons. cbn. exact IH. Qed.

Lemma every_impl (f g : ascii → bool) (s : string) :
  (∀ c, f c = true → g c = true) → every f s = true → every g s = true.
Proof.
  intros Hfg. induction s as [|c s IH]; [done|]. cbn.
  intros [Hc Hs]%andb_true_iff. rewrite (Hfg c Hc). by apply IH.
Qed.

Lemma span_word_app (n : string) (c : ascii) (rest : string) :
  every Regexp.is_word n = true → Regexp.is_word c = false →
  Regexp.span_word (n +:+ String c rest) = String.length n.
Proof.
  intros Hn Hc. induction n as [|x n IH].
  - rewrite app_empty_l. cbn [Regexp.span_word String.length]. by rewrite Hc.
  - rewrite app_cons. cbn [Regexp.span_word String.length every] in *.
    apply andb_true_iff in Hn as [Hx Hn]. rewrite Hx. by rewrite IH.
Qed.

Lemma name_length (n : string) : is_name n = true → (0 <? String.length n) = true.
Proof.
  unfold is_name. intros [_ H]%andb_true_iff. destruct n; [done|]. done.
Qed.

Section Replace.

Variable m : string → option nat.
Variable repl : string → string.

(** The pattern of both passes starts with a brace. *)
Hypothesis m_brace : ∀ c s, c ≠ "{"%char → m (String c s) = None.

Lemma Replace_skip (a b : string) :
  Regexp.ReplaceAllStringFunc m repl (String.length a) (a +:+ b)
  = Regexp.ReplaceAllStringFunc m repl 0 b.
Proof.
  induction a as [|x a IH]; [by destruct b|]. rewrite app_cons. cbn. exact IH.
Qed.

Lemma Replace_copy (w rest : string) :
  every (λ c, negb (Ascii.eqb c "{")) w = true →
  Regexp.ReplaceAllStringFunc m repl 0 (w +:+ rest)
  = (w +:+ (Regexp.ReplaceAllStringFunc m repl 0 rest).1,
     (Regexp.ReplaceAllStringFunc m repl 0 rest).2).
Proof using m_brace.
  induction w as [|c w IH]; intros Hw.
  - rewrite !app_empty_l. by destruct (Regexp.ReplaceAllStringFunc m repl 0 rest).
  - cbn in Hw. apply andb_true_iff in Hw as [Hc Hw].
    rewrite app_cons. cbn [Regexp.ReplaceAllStringFunc].
    rewrite m_brace.
    + rewrite (IH Hw). cbn [fst snd]. by rewrite app_cons.
    + intros ->. done.
Qed.

Lemma Replace_found (tok rest : string) (c : ascii) (tok' : string) :
  tok = String c tok' →
  m (tok +:+ rest) = Some (String.length tok) →
  Regexp.ReplaceAllStringFunc m repl 0 (tok +:+ rest)
  = (repl tok +:+ (Regexp.ReplaceAllStringFunc m repl 0 rest).1,
     tok :: (Regexp.ReplaceAllStringFunc m repl 0 rest).2).
Proof.
  intros -> Hm. rewrite app_cons in *. cbn [Regexp.ReplaceAllStringFunc].
  rewrite Hm. cbn [String.length]. rewrite Nat.sub_succ, Nat.sub_0_r.
  rewrite Replace_skip. rewrite <- app_cons.
  change (S (String.length tok')) with (String.length (String c tok')).
  by rewrite substring_app.
Qed.

End Replace.

Lemma Replace_miss (m : string → option nat) (repl : string → string) (c : ascii)
    (s : string) :
  m (String c s) = None →
  Regexp.ReplaceAllStringFunc m repl 0 (String c s)
  = (String c (Regexp.ReplaceAllStringFunc m repl 0 s).1,
     (Regexp.ReplaceAllStringFunc m repl 0 s).2).
Proof. intros H. cbn [Regexp.ReplaceAllStringFunc]. by rewrite H. Qed.

Lemma match_required_brace (c : ascii) (s : string) :
  c ≠ "{"%char → Regexp.match_required (String c s) = None.
Proof.
  intros Hc. unfold Regexp.match_required.
  destruct c as [[] [] [] [] [] [] [] []]; try reflexivity. done.
Qed.

Lemma match_optional_brace (c : ascii) (s : string) :
  c ≠ "{"%char → Regexp.match_optional (String c s) = None.
Proof.
  intros Hc. unfold Regexp.match_optional.
  destruct c as [[] [] [] [] [] [] [] []]; try reflexivity. done.
Qed.

Lemma name_is_word (n : string) : is_name n = true → every Regexp.is_word n = true.
Proof. unfold is_name. by intros [H _]%andb_true_iff. Qed.

Lemma required_hit (n rest : string) :
  is_name n = true →
  Regexp.match_required (("{" +:+ n +:+ "}") +:+ rest)
  = Some (String.length ("{" +:+ n +:+ "}")).
Proof.
  intros Hn. rewrite string_app_assoc, app_cons, app_empty_l.
  rewrite (string_app_assoc n). rewrite (app_cons "}" "" rest), app_empty_l.
  unfold Regexp.match_required.
  rewrite (span_word_app n "}" rest) by (by apply name_is_word || reflexivity).
  rewrite (name_length n Hn), get_app. cbn [andb].
  rewrite bool_decide_eq_true_2 by done.
  rewrite app_cons, app_empty_l. cbn [String.length]. rewrite length_app. cbn [String.length].
  f_equal. lia.
Qed.

Lemma required_miss (n rest : string) :
  is_name n = true →
  Regexp.match_required (String "{" (n +:+ String "?" rest)) = None.
Proof.
  intros Hn. unfold Regexp.match_required.
  rewrite (span_word_app n "?" rest) by (by apply name_is_word || reflexivity).
  rewrite (name_length n Hn), get_app. cbn [andb].
  by rewrite bool_decide_eq_false_2.
Qed.

Lemma optional_hit (n rest : string) :
  is_name n = true →
  Regexp.match_optional (("{" +:+ n +:+ "?}") +:+ rest)
  = Some (String.length ("{" +:+ n +:+ "?}")).
Proof.
  intros Hn. rewrite string_app_assoc, app_cons, app_empty_l.
  rewrite (string_app_assoc n). rewrite (app_cons "?" "}" rest), (app_cons "}" "" rest).
  rewrite app_empty_l.
  unfold Regexp.match_optional.
  rewrite (span_word_app n "?" (String "}" rest)) by (by apply name_is_word || reflexivity).
  rewrite (name_length n Hn), get_app, get_app_S. cbn [andb].
  rewrite !bool_decide_eq_true_2 by done. cbn [andb].
  rewrite app_cons, app_empty_l. cbn [String.length]. rewrite length_app. cbn [String.length].
  f_equal. lia.
Qed.

Lemma literal_no_brace (text : string) :
  every Regexp.literal_byte text = true →
  every (λ c, negb (Ascii.eqb c "{")) text = true.
Proof.
  apply every_impl. intros c. unfold Regexp.literal_byte.
  intros [_ H]%andb_true_iff. destruct (Ascii.eqb_spec c "{") as [->|]; [done|done].
Qed.

Lemma word_no_brace (n : string) :
  every Regexp.is_word n = true → every (λ c, negb (Ascii.eqb c "{")) n = true.
Proof.
  apply every_impl. intros c Hc.
  destruct (Ascii.eqb_spec c "{") as [->|]; [done|done].
Qed.

(** The first pass replaces the required parameters and nothing else. *)
Lemma first_pass (parts : list part) :
  forallb template_ok parts = true →
  Regexp.ReplaceAllStringFunc Regexp.match_required (λ _, "([^/]+)") 0 (template_of parts)
  = (half_compiled parts, (λ n, "{" +:+ n +:+ "}") <$> required_names parts).
Proof.
  induction parts as [|p parts IH]; [done|].
  cbn [forallb]. intros [Hp Hparts]%andb_true_iff. specialize (IH Hparts).
  cbn [template_of half_compiled foldr].
  fold (template_of parts). fold (half_compiled parts).
  destruct p as [text|n v|n v]; cbn [spell after_first template_ok] in *.
  - rewrite (Replace_copy _ _ match_required_brace) by (by apply literal_no_brace).
    by rewrite IH.
  - rename Hp into Hn.
    rewrite (Replace_found _ _ _ _ "{" (n +:+ "}")); [| done | by apply required_hit].
    by rewrite IH.
  - rename Hp into Hn.
    rewrite string_app_assoc, app_cons, app_empty_l, string_app_assoc.
    rewrite Replace_miss.
    2:{ rewrite (app_cons "?" "}"). by apply required_miss. }
    rewrite (Replace_copy _ _ match_required_brace n) by (by apply word_no_brace, name_is_word).
    cbn [fst snd].
    rewrite (Replace_copy _ _ match_required_brace "?}") by reflexivity.
    rewrite IH. cbn [fst snd].
    by rewrite !string_app_assoc, !app_cons, !app_empty_l.
Qed.

(** The second pass replaces the optional parameters and nothing else. *)
Lemma second_pass (parts : list part) :
  forallb template_ok parts = true →
  Regexp.ReplaceAllStringFunc Regexp.match_optional (λ _, "(?:([^/]+))?") 0
    (half_compiled parts)
  = (pattern_body parts, (λ n, "{" +:+ n +:+ "?}") <$> optional_names parts).
Proof.
  induction parts as [|p parts IH]; [done|].
  cbn [forallb]. intros [Hp Hparts]%andb_true_iff. specialize (IH Hparts).
  cbn [pattern_body half_compiled foldr].
  fold (pattern_body parts). fold (half_compiled parts).
  destruct p as [text|n v|n v]; cbn [after_second after_first template_ok] in *.
  - rewrite (Replace_copy _ _ match_optional_brace) by (by apply literal_no_brace).
    by rewrite IH.
  - rewrite (Replace_copy _ _ match_optional_brace "([^/]+)") by reflexivity.
    by rewrite IH.
  - rename Hp into Hn.
    rewrite (Replace_found _ _ _ _ "{" (n +:+ "?}")); [| done | by apply optional_hit].
    by rewrite IH.
Qed.

Lemma word_outside_cutsets (c : ascii) :
  Regexp.is_word c = true →
  Strings.in_cutset "{}" c = false ∧ Strings.in_cutset "{?}" c = false.
Proof. destruct c as [[] [] [] [] [] [] [] []]; cbv; intros H; (done || discriminate H). Qed.

Lemma TrimRight_all (cutset tail : string) :
  every (Strings.in_cutset cutset) tail = true → Strings.TrimRight tail cutset = "".
Proof.
  induction tail as [|c tail IH]; [done|]. cbn [every Strings.TrimRight].
  intros [Hc Ht]%andb_true_iff. by rewrite (IH Ht), Hc.
Qed.

Lemma TrimRight_tail (cutset w tail : string) :
  every (λ c, negb (Strings.in_cutset cutset c)) w = true →
  every (Strings.in_cutset cutset) tail = true →
  Strings.TrimRight (w +:+ tail) cutset = w.
Proof.
  intros Hw Ht. induction w as [|c w IH].
  - rewrite app_empty_l. by apply TrimRight_all.
  - cbn [every] in Hw. apply andb_true_iff in Hw as [Hc Hw].
    rewrite app_cons. cbn [Strings.TrimRight]. rewrite (IH Hw).
    apply negb_true_iff in Hc. rewrite Hc. by destruct w.
Qed.

Lemma Trim_required (n : string) :
  is_name n = true → Strings.Trim ("{" +:+ n +:+ "}") "{}" = n.
Proof.
  intros Hn. pose proof (name_is_word n Hn) as Hw.
  unfold Strings.Trim. rewrite app_cons, app_empty_l.
  destruct n as [|c n]; [done|]. cbn [every] in Hw.
  apply andb_true_iff in Hw as [Hc Hw].
  destruct (word_outside_cutsets c Hc) as [Hc1 _].
  rewrite app_cons.
  change (Strings.TrimLeft (String "{" (String c (n +:+ "}"))) "{}")
    with (if Strings.in_cutset "{}" c
          then Strings.TrimLeft (n +:+ "}") "{}" else String c (n +:+ "}")).
  rewrite Hc1. rewrite <- app_cons. apply TrimRight_tail; [|done].
  cbn [every]. rewrite Hc1. cbn [negb andb].
  revert Hw. apply every_impl. intros d Hd.
  by destruct (word_outside_cutsets d Hd) as [-> _].
Qed.

Lemma Trim_optional (n : string) :
  is_name n = true → Strings.Trim ("{" +:+ n +:+ "?}") "{?}" = n.
Proof.
  intros Hn. pose proof (name_is_word n Hn) as Hw.
  unfold Strings.Trim. rewrite app_cons, app_empty_l.
  destruct n as [|c n]; [done|]. cbn [every] in Hw.
  apply andb_true_iff in Hw as [Hc Hw].
  destruct (word_outside_cutsets c Hc) as [_ Hc1].
  rewrite app_cons.
  change (Strings.TrimLeft (String "{" (String c (n +:+ "?}"))) "{?}")
    with (if Strings.in_cutset "{?}" c
          then Strings.TrimLeft (n +:+ "?}") "{?}" else String c (n +:+ "?}")).
  rewrite Hc1. rewrite <- app_cons. apply TrimRight_tail; [|done].
  cbn [every]. rewrite Hc1. cbn [negb andb].
  revert Hw. apply every_impl. intros d Hd.
  by destruct (word_outside_cutsets d Hd) as [_ ->].
Qed.

Lemma required_names_are_names (parts : list part) :
  forallb template_ok parts = true → Forall (λ n, is_name n = true) (required_names parts).
Proof.
  induction parts as [|p parts IH]; [constructor|]. cbn [forallb].
  intros [Hp Hparts]%andb_true_iff. specialize (IH Hparts).
  destruct p as [text|n v|n v]; cbn; [done| |done].
  constructor; [|done]. exact Hp.
Qed.

Lemma optional_names_are_names (parts : list part) :
  forallb template_ok parts = true → Forall (λ n, is_name n = true) (optional_names parts).
Proof.
  induction parts as [|p parts IH]; [constructor|]. cbn [forallb].
  intros [Hp Hparts]%andb_true_iff. specialize (IH Hparts).
  destruct p as [text|n v|n v]; cbn; [done|done|].
  constructor; [|done]. exact Hp.
Qed.

Lemma Trim_all_required (names : list string) :
  Forall (λ n, is_name n = true) names →
  (λ found, Strings.Trim found "{}") <$> ((λ n, "{" +:+ n +:+ "}") <$> names) = names.
Proof.
  induction 1 as [|n names Hn _ IH]; [done|]. cbn [fmap list_fmap] in *.
  by rewrite Trim_required, IH.
Qed.

Lemma Trim_all_optional (names : list string) :
  Forall (λ n, is_name n = true) names →
  (λ found, Strings.Trim found "{?}") <$> ((λ n, "{" +:+ n +:+ "?}") <$> names) = names.
Proof.
  induction 1 as [|n names Hn _ IH]; [done|]. cbn [fmap list_fmap] in *.
  by rewrite Trim_optional, IH.
Qed.

Lemma parse_literal (c : ascii) (rest : string) :
  Regexp.literal_byte c = true →
  Regexp.parse 0 (String c rest) = cons (Regexp.Lit c) <$> Regexp.parse 0 rest.
Proof.
  intros Hc. cbn [Regexp.parse Strings.HasPrefix].
  assert (Ascii.eqb c "(" = false ∧ Ascii.eqb c "$" = false) as [-> ->].
  { unfold Regexp.literal_byte in Hc. apply andb_true_iff in Hc as [_ Hc].
    split; [destruct (Ascii.eqb_spec c "(") as [->|] | destruct (Ascii.eqb_spec c "$") as [->|]];
      done. }
  by rewrite Hc.
Qed.

Lemma parse_text (text rest : string) :
  every Regexp.literal_byte text = true →
  Regexp.parse 0 (text +:+ rest)
  = app (Regexp.Lit <$> String.list_ascii_of_string text) <$> Regexp.parse 0 rest.
Proof.
  induction text as [|c text IH]; intros Ht.
  - rewrite app_empty_l. cbn. by destruct (Regexp.parse 0 rest).
  - cbn [every] in Ht. apply andb_true_iff in Ht as [Hc Ht].
    rewrite app_cons, (parse_literal c _ Hc), (IH Ht).
    cbn. by destruct (Regexp.parse 0 rest).
Qed.

Lemma parse_segment (rest : string) :
  Regexp.parse 0 ("([^/]+)" +:+ rest) = cons Regexp.Segment <$> Regexp.parse 0 rest.
Proof. destruct rest; reflexivity. Qed.

Lemma parse_optional (rest : string) :
  Regexp.parse 0 ("(?:([^/]+))?" +:+ rest) = cons Regexp.OptSegment <$> Regexp.parse 0 rest.
Proof. destruct rest; reflexivity. Qed.

Lemma parse_body (parts : list part) :
  forallb template_ok parts = true →
  Regexp.parse 0 (pattern_body parts +:+ "$") = Some (program_of parts).
Proof.
  induction parts as [|p parts IH]; [done|]. cbn [forallb].
  intros [Hp Hparts]%andb_true_iff. specialize (IH Hparts).
  cbn [pattern_body foldr]. fold (pattern_body parts). rewrite string_app_assoc.
  change (program_of (p :: parts)) with (nodes_of p ++ program_of parts).
  destruct p as [text|n v|n v]; cbn [after_second nodes_of template_ok] in *.
  - by rewrite parse_text, IH.
  - by rewrite parse_segment, IH.
  - by rewrite parse_optional, IH.
Qed.

(** [compile] on a well-formed template: the program is the template's, and
    the parameter names are those of the required parameters, in order,
    followed by those of the optional ones, in order, wherever they stand
    in the template. *)
Lemma compile_parts (parts : list part) (m : string) (h : HandlerFunc) :
  forallb template_ok parts = true →
  compile (declared m (template_of parts) h)
  = Some {| method := m; path := template_of parts; handler := h; middleware := [];
            name := ""; pattern := Regexp.Build_Regexp (program_of parts);
            paramNames := required_names parts ++ optional_names parts |}.
Proof.
  intros Hwf. unfold compile, declared. cbn [path paramNames method handler middleware name].
  rewrite (first_pass parts Hwf). cbn [fst snd].
  rewrite (second_pass parts Hwf). cbn [fst snd].
  rewrite Trim_all_required by (by apply required_names_are_names).
  rewrite Trim_all_optional by (by apply optional_names_are_names).
  rewrite app_cons, app_empty_l. unfold Regexp.MustCompile.
  rewrite (parse_body parts Hwf). reflexivity.
Qed.

(** ** Matching a path *)

Lemma run_text (text : string) (prog : list Regexp.node) (s : string) :
  Regexp.run ((Regexp.Lit <$> String.list_ascii_of_string text) ++ prog) (text +:+ s)
  = Regexp.run prog s.
Proof.
  induction text as [|c text IH]; [done|].
  rewrite app_cons. cbn. by rewrite Ascii.eqb_refl.
Qed.

(** Literal text is matched by itself only. *)
Lemma run_text_inv (text : string) (prog : list Regexp.node) (p : string)
    (caps : list string) :
  Regexp.run ((Regexp.Lit <$> String.list_ascii_of_string text) ++ prog) p = Some caps →
  ∃ s, p = text +:+ s ∧ Regexp.run prog s = Some caps.
Proof.
  revert p. induction text as [|c text IH]; intros p H.
  - by exists p.
  - cbn in H. destruct p as [|c' p]; [done|].
    destruct (Ascii.eqb_spec c' c) as [->|]; [|done].
    destruct (IH p H) as (s & -> & Hs). by exists s.
Qed.

(** What [[^/]+] takes is a segment, and the rest of the program matches
    what is left. *)
Lemma segment_sound (k : string → option (list string)) (s cap : string)
    (caps : list string) :
  Regexp.segment k s = Some (cap, caps) →
  is_segment cap = true ∧ ∃ rest, s = cap +:+ rest ∧ k rest = Some caps.
Proof.
  revert cap caps. induction s as [|c s IH]; intros cap caps H; [done|].
  cbn [Regexp.segment] in H.
  destruct (Ascii.eqb c "/") eqn:Hc; [done|].
  destruct (Regexp.segment k s) as [[cap' caps']|] eqn:Hs.
  - injection H as <- <-. destruct (IH cap' caps' eq_refl) as (Hseg & rest & -> & Hk).
    split.
    + unfold is_segment in *. cbn [every]. unfold not_slash at 1. rewrite Hc.
      apply andb_true_iff in Hseg as [-> _]. done.
    + by exists rest.
  - destruct (k s) as [caps'|] eqn:Hk; [|done]. cbn in H. injection H as <- <-.
    split.
    + unfold is_segment. cbn [every]. unfold not_slash. by rewrite Hc.
    + by exists s.
Qed.

Lemma segment_at_boundary (k : string → option (list string)) (s : string) :
  at_boundary s → Regexp.segment k s = None.
Proof. destruct s as [|c s]; [done|]. cbn. by intros ->. Qed.

(** At the end of a segment the greedy group takes all of it. *)
Lemma segment_greedy (k : string → option (list string)) (v rest : string)
    (caps : list string) :
  is_segment v = true → at_boundary rest → k rest = Some caps →
  Regexp.segment k (v +:+ rest) = Some (v, caps).
Proof.
  unfold is_segment. intros [Hv Hne]%andb_true_iff Hrest Hk.
  destruct v as [|c v]; [done|]. clear Hne.
  revert c Hv. induction v as [|d v IH]; intros c Hv.
  - rewrite app_cons, app_empty_l. cbn [Regexp.segment].
    cbn [every] in Hv. apply andb_true_iff in Hv as [Hc _].
    unfold not_slash in Hc. apply negb_true_iff in Hc. rewrite Hc.
    rewrite (segment_at_boundary k rest Hrest), Hk. done.
  - rewrite app_cons. cbn [Regexp.segment].
    cbn [every] in Hv. apply andb_true_iff in Hv as [Hc Hv].
    unfold not_slash in Hc. apply negb_true_iff in Hc. rewrite Hc.
    by rewrite (IH d Hv).
Qed.

(** Every group of a match captured a segment, or nothing if it is
    optional. *)
Lemma run_captures (parts : list part) (s : string) (caps : list string) :
  Regexp.run (program_of parts) s = Some caps →
  Forall2 (λ required v, captured required v = true) (kinds parts) caps.
Proof.
  revert s caps. induction parts as [|p parts IH]; intros s caps H.
  - cbn in H. destruct s; [|done]. injection H as <-. constructor.
  - change (program_of (p :: parts)) with (nodes_of p ++ program_of parts) in H.
    change (kinds (p :: parts)) with (kind_of p ++ kinds parts).
    destruct p as [text|n v|n v]; cbn [nodes_of kind_of app] in *.
    + apply run_text_inv in H as (s' & _ & H). by apply (IH s').
    + cbn [Regexp.run] in H.
      destruct (Regexp.segment _ s) as [[cap caps']|] eqn:Hs; [|done].
      cbn in H. injection H as <-.
      apply segment_sound in Hs as (Hseg & rest & _ & Hk).
      constructor; [|by apply (IH rest)]. unfold captured. by rewrite Hseg.
    + cbn [Regexp.run] in H.
      destruct (Regexp.segment _ s) as [[cap caps']|] eqn:Hs.
      * cbn in H. injection H as <-.
        apply segment_sound in Hs as (Hseg & rest & _ & Hk).
        constructor; [|by apply (IH rest)]. unfold captured. by rewrite Hseg.
      * destruct (Regexp.run (program_of parts) s) as [caps'|] eqn:Hr; [|done].
        cbn in H. injection H as <-. constructor; [done|]. by apply (IH s).
Qed.

Lemma path_at_boundary (parts : list part) :
  starts_segment parts = true → at_boundary (path_of parts).
Proof.
  destruct parts as [|[text|n v|n v] parts]; try done.
  destruct text as [|c text]; [done|]. cbn [starts_segment].
  destruct c as [[] [] [] [] [] [] [] []]; try done.
Qed.

(** The path written from a template is matched, and each group captures
    the value written at its place. *)
Lemma run_path (parts : list part) :
  forallb values_ok parts = true → delimited parts = true →
  Regexp.run (program_of parts) (path_of parts) = Some ((parameters parts).*2).
Proof.
  induction parts as [|p parts IH]; [done|].
  cbn [forallb]. intros [Hp Hparts]%andb_true_iff Hd.
  change (program_of (p :: parts)) with (nodes_of p ++ program_of parts).
  change (path_of (p :: parts)) with (fill p +:+ path_of parts).
  change (parameters (p :: parts)) with (bound_of p ++ parameters parts).
  rewrite fmap_app.
  destruct p as [text|n v|n v]; cbn [nodes_of fill bound_of values_ok delimited app] in *.
  - rewrite run_text. by apply IH.
  - apply andb_true_iff in Hd as [Hb Hd]. cbn [Regexp.run].
    rewrite (segment_greedy _ v (path_of parts) _ Hp (path_at_boundary _ Hb) (IH Hparts Hd)).
    done.
  - apply andb_true_iff in Hd as [Hb Hd]. cbn [Regexp.run].
    destruct (String.eqb_spec v "") as [->|Hne].
    + rewrite app_empty_l, (segment_at_boundary _ _ (path_at_boundary _ Hb)).
      by rewrite (IH Hparts Hd).
    + assert (is_segment v = true) as Hseg.
      { unfold is_segment. rewrite Hp. by apply String.eqb_neq in Hne as ->. }
      rewrite (segment_greedy _ v (path_of parts) _ Hseg (path_at_boundary _ Hb)
                 (IH Hparts Hd)). done.
Qed.

(** ** Binding the parameters *)

Lemma bind_params_frame (matches names : list string) (i : nat)
    (acc : gmap string string) (n : string) :
  n ∉ names → bind_params matches names i acc !! n = acc !! n.
Proof.
  revert i acc. induction names as [|x names IH]; intros i acc Hn; [done|].
  apply not_elem_of_cons in Hn as [Hx Hn]. cbn [bind_params]. rewrite IH by done.
  destruct (matches !! (i + 1)) as [v|]; [|done].
  case_bool_decide; [done|]. by rewrite lookup_insert_ne.
Qed.

Lemma bind_params_keeps (matches names : list string) (i : nat)
    (acc : gmap string string) (n : string) :
  is_Some (acc !! n) → is_Some (bind_params matches names i acc !! n).
Proof.
  revert i acc. induction names as [|x names IH]; intros i acc Hn; [done|].
  cbn [bind_params]. apply IH.
  destruct (matches !! (i + 1)) as [v|]; [|done].
  case_bool_decide; [done|].
  destruct (decide (x = n)) as [->|]; [by rewrite lookup_insert_eq|by rewrite lookup_insert_ne].
Qed.

(** With distinct names, parameter [j] ends up bound to group [j+1] when
    that group is not empty, and unbound when it is. *)
Lemma bind_params_at (matches names : list string) (i j : nat)
    (acc : gmap string string) (n : string) :
  NoDup names → names !! j = Some n →
  bind_params matches names i acc !! n
  = match matches !! (i + j + 1) with
    | Some v => if bool_decide (v = "") then acc !! n else Some v
    | None => acc !! n
    end.
Proof.
  revert i j acc. induction names as [|x names IH]; intros i j acc Hnd Hj; [done|].
  apply NoDup_cons in Hnd as [Hx Hnd]. cbn [bind_params].
  destruct j as [|j].
  - injection Hj as ->. rewrite bind_params_frame by done.
    rewrite Nat.add_0_r.
    destruct (matches !! (i + 1)) as [v|]; [|done].
    case_bool_decide; [done|]. by rewrite lookup_insert_eq.
  - cbn in Hj. rewrite (IH (S i) j _ Hnd Hj).
    replace (S i + j + 1) with (i + S j + 1) by lia.
    assert (x ≠ n) as Hne.
    { intros ->. apply Hx. by eapply list_elem_of_lookup_2. }
    assert ((match matches !! (i + 1) with
             | Some v => if bool_decide (v = "") then acc else <[x:=v]> acc
             | None => acc
             end) !! n = acc !! n) as ->.
    { destruct (matches !! (i + 1)) as [v|]; [|done].
      case_bool_decide; [done|]. by rewrite lookup_insert_ne. }
    done.
Qed.

(** Whatever the names, parameter [j] is bound when group [j+1] is not
    empty. *)
Lemma bind_params_bound (matches names : list string) (i j : nat)
    (acc : gmap string string) (n v : string) :
  names !! j = Some n → matches !! (i + j + 1) = Some v → v ≠ "" →
  is_Some (bind_params matches names i acc !! n).
Proof.
  revert i j acc. induction names as [|x names IH]; intros i j acc Hj Hv Hne; [done|].
  cbn [bind_params]. destruct j as [|j].
  - injection Hj as ->. rewrite Nat.add_0_r in Hv. rewrite Hv.
    rewrite bool_decide_eq_false_2 by done.
    apply bind_params_keeps. by rewrite lookup_insert_eq.
  - cbn in Hj. apply (IH (S i) j _ Hj); [|done].
    by replace (S i + j + 1) with (i + S j + 1) by lia.
Qed.

(** Every binding comes from the names, with a group that is not empty as
    its value. *)
Lemma bind_params_from (matches names : list string) (i : nat)
    (acc : gmap string string) (n v : string) :
  bind_params matches names i acc !! n = Some v →
  acc !! n = Some v ∨ (n ∈ names ∧ v ≠ "" ∧ ∃ j, matches !! (j + 1) = Some v).
Proof.
  revert i acc. induction names as [|x names IH]; intros i acc H; [by left|].
  cbn [bind_params] in H. apply IH in H as [H|(Hn & Hv & j & Hj)].
  - destruct (matches !! (i + 1)) as [w|] eqn:Hw; [|by left].
    case_bool_decide as Hne; [by left|].
    destruct (decide (x = n)) as [->|Hx].
    + rewrite lookup_insert_eq in H. injection H as ->. right.
      split; [apply list_elem_of_here|]. split; [done|]. by exists i.
    + rewrite lookup_insert_ne in H by done. by left.
  - right. split; [by apply list_elem_of_further|]. split; [done|]. by exists j.
Qed.

(** Every group of a match captured a segment or nothing. *)
Lemma run_values (prog : list Regexp.node) (s : string) (caps : list string) :
  Regexp.run prog s = Some caps → Forall (λ v, v = "" ∨ is_segment v = true) caps.
Proof.
  revert s caps. induction prog as [|node prog IH]; intros s caps H.
  - cbn in H. destruct s; [|done]. injection H as <-. constructor.
  - destruct node as [c| |]; cbn [Regexp.run] in H.
    + destruct s as [|c' s]; [done|]. destruct (Ascii.eqb c' c); [|done]. by apply (IH s).
    + destruct (Regexp.segment _ s) as [[cap caps']|] eqn:Hs; [|done].
      cbn in H. injection H as <-.
      apply segment_sound in Hs as (Hseg & rest & _ & Hk).
      constructor; [by right|by apply (IH rest)].
    + destruct (Regexp.segment _ s) as [[cap caps']|] eqn:Hs.
      * cbn in H. injection H as <-.
        apply segment_sound in Hs as (Hseg & rest & _ & Hk).
        constructor; [by right|by apply (IH rest)].
      * destruct (Regexp.run prog s) as [caps'|] eqn:Hr; [|done].
        cbn in H. injection H as <-. constructor; [by left|by apply (IH s)].
Qed.


(** ** Templates and the paths they accept *)

(** When no required parameter follows an optional one, the two passes of
    [compile] record the names in the order of their positions. *)
Lemma names_in_order (parts : list part) :
  optional_last parts = true →
  required_names parts ++ optional_names parts = (parameters parts).*1.
Proof.
  induction parts as [|p parts IH]; [done|].
  change (required_names (p :: parts)) with (required_of p ++ required_names parts).
  change (optional_names (p :: parts)) with (optional_of p ++ optional_names parts).
  change (parameters (p :: parts)) with (bound_of p ++ parameters parts).
  rewrite fmap_app.
  destruct p as [text|n v|n v]; cbn [optional_last required_of optional_of bound_of app fmap list_fmap].
  - apply IH.
  - intros H. cbn. f_equal. by apply IH.
  - intros [Hreq Hl]%andb_true_iff. apply bool_decide_eq_true in Hreq.
    specialize (IH Hl). rewrite Hreq in *. cbn in *. by f_equal.
Qed.

Lemma required_position (parts : list part) (n : string) :
  n ∈ required_names parts →
  ∃ j, (parameters parts).*1 !! j = Some n ∧ kinds parts !! j = Some true.
Proof.
  induction parts as [|p parts IH]; [by intros ?%elem_of_nil|].
  change (required_names (p :: parts)) with (required_of p ++ required_names parts).
  change (kinds (p :: parts)) with (kind_of p ++ kinds parts).
  change (parameters (p :: parts)) with (bound_of p ++ parameters parts).
  rewrite fmap_app.
  destruct p as [text|x v|x v]; cbn [required_of kind_of bound_of app fmap list_fmap].
  - apply IH.
  - intros [->|Hin]%elem_of_cons; [by exists 0|].
    destruct (IH Hin) as (j & H1 & H2). by exists (S j).
  - intros Hin. destruct (IH Hin) as (j & H1 & H2). by exists (S j).
Qed.

Lemma captured_required (v : string) : captured true v = true → is_segment v = true.
Proof. unfold captured. by rewrite orb_false_r. Qed.

Lemma is_segment_not_empty (v : string) : is_segment v = true → v ≠ "".
Proof. intros H ->. done. Qed.

(** What [Match] binds, for every route and every path. *)
Lemma Match_bound (rt : Route) (p : string) (ps : gmap string string) (n v : string) :
  Match rt p = (true, ps) →
  ps !! n = Some v →
  n ∈ paramNames rt ∧ is_segment v = true.
Proof.
  unfold Match, Regexp.FindStringSubmatch. intros H Hn.
  destruct (Regexp.run (Regexp.prog (pattern rt)) p) as [caps|] eqn:Hrun; [|done].
  cbn in H. injection H as <-.
  apply bind_params_from in Hn as [Hn|(Hin & Hne & j & Hj)]; [done|].
  split; [done|]. rewrite Nat.add_1_r in Hj. cbn in Hj.
  apply run_values in Hrun. rewrite Forall_forall in Hrun.
  destruct (Hrun v) as [->|Hseg]; [by eapply list_elem_of_lookup_2|done|done].
Qed.

(** The match of a well-formed, delimited template against the path spelled
    from its own values. *)
Lemma Match_path (parts : list part) (m : string) (h : HandlerFunc) (rt : Route) :
  forallb template_ok parts = true →
  forallb values_ok parts = true →
  delimited parts = true →
  compile (declared m (template_of parts) h) = Some rt →
  Match rt (path_of parts)
  = (true, bind_params (path_of parts :: (parameters parts).*2)
             (required_names parts ++ optional_names parts) 0 ∅).
Proof.
  intros Ht Hv Hd Hc. rewrite compile_parts in Hc by done. injection Hc as <-.
  unfold Match, Regexp.FindStringSubmatch. cbn [pattern paramNames Regexp.prog].
  by rewrite run_path.
Qed.

(** What the round trip binds. *)
Lemma round_trip_bindings (parts : list part) (s : string) :
  NoDup (parameters parts).*1 →
  (∀ n v, (n, v) ∈ parameters parts →
     bind_params (s :: (parameters parts).*2) (parameters parts).*1 0 ∅ !! n
     = if bool_decide (v = "") then None else Some v) ∧
  (∀ n, n ∉ (parameters parts).*1 →
     bind_params (s :: (parameters parts).*2) (parameters parts).*1 0 ∅ !! n = None).
Proof.
  intros Hnd. split.
  - intros n v [j Hj]%list_elem_of_lookup_1.
    rewrite (bind_params_at _ _ 0 j ∅ n Hnd) by (by rewrite list_lookup_fmap, Hj).
    replace (0 + j + 1) with (S j) by lia. cbn [lookup list_lookup].
    change (((parameters parts).*2) !! j) with ((snd <$> parameters parts) !! j).
    rewrite list_lookup_fmap, Hj. cbn. by rewrite lookup_empty.
  - intros n Hn. by rewrite bind_params_frame.
Qed.

(** [compile] on a well-formed template never fails; the pattern is the
    template's program, and [paramNames] holds the names of the required
    parameters in the order of their positions, followed by the names of the
    optional parameters in the order of theirs, wherever they stand. *)
Theorem compile_two_passes (parts : list part) (m : string) (h : HandlerFunc) :
  forallb template_ok parts = true →
  compile (declared m (template_of parts) h)
  = Some {| method := m; path := template_of parts; handler := h; middleware := [];
            name := ""; pattern := Regexp.Build_Regexp (program_of parts);
            paramNames := required_names parts ++ optional_names parts |}.
Proof. apply compile_parts. Qed.

(** The template [/a/{x?}/{y}/{z?}]: the required [y] is recorded first. *)
Lemma compile_two_passes_witness :
  paramNames <$> compile (declared "GET" "/a/{x?}/{y}/{z?}" (answering "h"))
  = Some ["y"; "x"; "z"].
Proof.
  exact (f_equal (fmap paramNames)
           (compile_two_passes
              [Fixed "/a/"; Opt "x" ""; Fixed "/"; Req "y" ""; Fixed "/"; Opt "z" ""]
              "GET" (answering "h") eq_refl)).
Defined.

(** For every route compiled from a well-formed template and every path
    the route accepts, each name [Match] binds is one of the route's
    [paramNames], which are the names of the template's parameters, and each
    value it binds is one segment of the path: not empty and without a
    separator. *)
Theorem Match_binds (parts : list part) (m : string) (h : HandlerFunc) (rt : Route)
    (p : string) (ps : gmap string string) (n v : string) :
  forallb template_ok parts = true →
  compile (declared m (template_of parts) h) = Some rt →
  Match rt p = (true, ps) →
  ps !! n = Some v →
  n ∈ paramNames rt ∧
  paramNames rt = required_names parts ++ optional_names parts ∧
  is_segment v = true.
Proof.
  intros Ht Hc HM Hn. destruct (Match_bound rt p ps n v HM Hn) as [Hin Hseg].
  split; [done|]. split; [|done].
  rewrite compile_parts in Hc by done. by injection Hc as <-.
Qed.

(** After a match, [Param] answers the empty string exactly for the names
    the match left unbound. *)
Theorem Param_empty_iff_unbound (rt : Route) (p : string) (ps : gmap string string)
    (c : Context) (n : string) :
  Match rt p = (true, ps) → params c = ps →
  Param c n = "" ↔ ps !! n = None.
Proof.
  intros HM Hc. unfold Param. rewrite Hc.
  destruct (ps !! n) as [v|] eqn:Hn; [|done].
  destruct (Match_bound rt p ps n v HM Hn) as [_ Hseg].
  cbn. split; [|done]. intros ->. done.
Qed.

(** Round trip: a well-formed template in which no required parameter
    follows an optional one, every parameter ends its segment and the names
    are distinct, compiled and matched against the path spelled from values
    for its parameters, accepts the path and binds each parameter to its
    value; an optional parameter that was left out is not bound, and no
    other name is. *)
Theorem template_round_trip (parts : list part) (m : string) (h : HandlerFunc) :
  forallb template_ok parts = true →
  forallb values_ok parts = true →
  optional_last parts = true →
  delimited parts = true →
  NoDup (parameters parts).*1 →
  ∃ rt ps,
    compile (declared m (template_of parts) h) = Some rt ∧
    Match rt (path_of parts) = (true, ps) ∧
    (∀ n v, (n, v) ∈ parameters parts →
       ps !! n = if bool_decide (v = "") then None else Some v) ∧
    (∀ n, n ∉ (parameters parts).*1 → ps !! n = None).
Proof.
  intros Ht Hv Hl Hd Hnd.
  eexists _, _. split; [by apply compile_parts|].
  split; [by eapply Match_path; [..|by apply compile_parts]|].
  rewrite names_in_order by done. by apply round_trip_bindings.
Qed.

(** A path the template accepts binds every required parameter, when no
    required parameter follows an optional one. *)
Theorem required_parameters_are_bound (parts : list part) (m : string) (h : HandlerFunc)
    (rt : Route) (p : string) (ps : gmap string string) (n : string) :
  forallb template_ok parts = true →
  optional_last parts = true →
  compile (declared m (template_of parts) h) = Some rt →
  Match rt p = (true, ps) →
  n ∈ required_names parts →
  ∃ v, ps !! n = Some v ∧ is_segment v = true.
Proof.
  intros Ht Hl Hc HM Hn.
  assert (is_Some (ps !! n)) as [v Hv]; [|exists v; split; [done|by eapply Match_bound]].
  rewrite compile_parts in Hc by done. injection Hc as <-.
  unfold Match, Regexp.FindStringSubmatch in HM. cbn [pattern paramNames Regexp.prog] in HM.
  destruct (Regexp.run (program_of parts) p) as [caps|] eqn:Hrun; [|done].
  cbn in HM. injection HM as <-. rewrite names_in_order by done.
  destruct (required_position parts n Hn) as (j & Hj & Hk).
  apply run_captures in Hrun.
  destruct (Forall2_lookup_l _ _ _ _ _ Hrun Hk) as (v & Hv & Hcap).
  apply captured_required, is_segment_not_empty in Hcap.
  apply (bind_params_bound _ _ 0 j ∅ n v); [done| |done].
  by replace (0 + j + 1) with (S j) by lia.
Qed.

(** The two passes against the position of the groups: in the template
    [/{a?}/{b}] the required [b] is recorded before [a], so that a path
    [/va/vb] binds [b] to [va] and [a] to [vb]. *)
Theorem optional_before_required_swaps (a b va vb m : string) (h : HandlerFunc) :
  is_name a = true → is_name b = true →
  is_segment va = true → is_segment vb = true →
  ∃ rt, compile (declared m ("/{" +:+ a +:+ "?}/{" +:+ b +:+ "}") h) = Some rt ∧
        Match rt ("/" +:+ va +:+ "/" +:+ vb) = (true, <[a := vb]> (<[b := va]> ∅)).
Proof.
  intros Ha Hb Hva Hvb.
  set (parts := [Fixed "/"; Opt a va; Fixed "/"; Req b vb]).
  assert (template_of parts = "/{" +:+ a +:+ "?}/{" +:+ b +:+ "}") as Ht.
  { cbn [parts template_of foldr spell].
    rewrite !string_app_assoc, app_empty_r. reflexivity. }
  assert (path_of parts = "/" +:+ va +:+ "/" +:+ vb) as Hp.
  { cbn [parts path_of foldr fill]. by rewrite app_empty_r. }
  assert (forallb template_ok parts = true) as Hok.
  { cbn [parts forallb template_ok]. rewrite Ha, Hb. reflexivity. }
  assert (forallb values_ok parts = true) as Hvals.
  { cbn [parts forallb values_ok]. rewrite Hvb.
    unfold is_segment in Hva. apply andb_true_iff in Hva as [-> _]. reflexivity. }
  rewrite <- Ht, <- Hp. eexists. split; [by apply compile_parts|].
  rewrite (Match_path parts m h _ Hok Hvals eq_refl (compile_parts _ _ _ Hok)).
  f_equal. cbn. rewrite !bool_decide_eq_false_2 by by apply is_segment_not_empty. done.
Qed.

(** A template that consists of literal bytes only (ASCII bytes that are no
    operators of the pattern syntax), so one without parameters, accepts its
    own text and nothing else. *)
Theorem literal_template_accepts_itself_only (text m : string) (h : HandlerFunc) :
  every Regexp.literal_byte text = true →
  ∃ rt, compile (declared m text h) = Some rt ∧ paramNames rt = [] ∧
        ∀ p, (Match rt p).1 = true ↔ p = text.
Proof.
  intros Ht.
  assert (forallb template_ok [Fixed text] = true) as Hok by (cbn; by rewrite Ht).
  pose proof (compile_parts [Fixed text] m h Hok) as Hc.
  cbn [template_of foldr spell] in Hc. rewrite app_empty_r in Hc.
  eexists. split; [exact Hc|]. split; [done|].
  intros p. unfold Match, Regexp.FindStringSubmatch. cbn [pattern Regexp.prog].
  change (program_of [Fixed text])
    with ((Regexp.Lit <$> String.list_ascii_of_string text) ++ []).
  split.
  - destruct (Regexp.run _ p) as [caps|] eqn:Hrun; [|done]. intros _.
    apply run_text_inv in Hrun as (s & -> & Hs).
    destruct s; [|done]. by rewrite app_empty_r.
  - intros ->. pose proof (run_text text [] "") as Hrun.
    rewrite app_empty_r in Hrun. by rewrite Hrun.
Qed.

(** ** The theorems on [/users/{id}/posts/{slug?}] *)

Lemma Match_binds_witness :
  (Match show_post "/users/42/posts/hello").2 !! "slug" = Some "hello" ∧
  "slug" ∈ paramNames show_post ∧ paramNames show_post = ["id"; "slug"] ∧
  is_segment "hello" = true.
Proof.
  split; [vm_compute; reflexivity|].
  apply (Match_binds user_post "GET" (answering "show") show_post "/users/42/posts/hello"
           (Match show_post "/users/42/posts/hello").2 "slug" "hello").
  - reflexivity.
  - reflexivity.
  - reflexivity.
  - vm_compute. reflexivity.
Defined.

Lemma Param_empty_iff_unbound_witness :
  (Match show_post "/users/42/posts/").1 = true ∧
  Param (matched (Match show_post "/users/42/posts/").2) "slug" = "".
Proof.
  split; [vm_compute; reflexivity|].
  apply (Param_empty_iff_unbound show_post "/users/42/posts/"
           (Match show_post "/users/42/posts/").2);
    vm_compute; reflexivity.
Defined.

Lemma template_round_trip_witness :
  ∃ rt ps,
    compile (declared "GET" "/users/{id}/posts/{slug?}" (answering "show")) = Some rt ∧
    Match rt "/users/42/posts/" = (true, ps) ∧
    ps !! "id" = Some "42" ∧ ps !! "slug" = None ∧ ps !! "page" = None.
Proof.
  destruct (template_round_trip user_post "GET" (answering "show"))
    as (rt & ps & Hc & HM & Hin & Hout).
  - reflexivity.
  - reflexivity.
  - reflexivity.
  - reflexivity.
  - compute_done.
  - exists rt, ps. split; [exact Hc|]. split; [exact HM|].
    split; [exact (Hin "id" "42" ltac:(repeat constructor))|].
    split; [exact (Hin "slug" "" ltac:(repeat constructor))|].
    apply Hout. compute_done.
Defined.

Lemma required_parameters_are_bound_witness :
  "id" ∈ required_names user_post ∧
  ∃ v, (Match show_post "/users/7/posts/hello").2 !! "id" = Some v ∧ is_segment v = true.
Proof.
  split; [repeat constructor|].
  apply (required_parameters_are_bound user_post "GET" (answering "show") show_post
           "/users/7/posts/hello").
  - reflexivity.
  - reflexivity.
  - reflexivity.
  - reflexivity.
  - repeat constructor.
Defined.

(** [/{lang?}/{page}] asked for [/en/home]. *)
Lemma optional_before_required_swaps_witness :
  ∃ rt, compile (declared "GET" "/{lang?}/{page}" (answering "show")) = Some rt ∧
        (Match rt "/en/home").2 !! "page" = Some "en" ∧
        (Match rt "/en/home").2 !! "lang" = Some "home".
Proof.
  destruct (optional_before_required_swaps "lang" "page" "en" "home" "GET" (answering "show"))
    as (rt & Hc & HM).
  - reflexivity.
  - reflexivity.
  - reflexivity.
  - reflexivity.
  - exists rt. split; [exact Hc|].
    split; [exact (f_equal (λ r, r.2 !! "page") HM)|exact (f_equal (λ r, r.2 !! "lang") HM)].
Defined.

(** [/health] accepts [/health] and refuses [/health/]. *)
Lemma literal_template_accepts_itself_only_witness :
  ∃ rt, compile (declared "GET" "/health" (answering "up")) = Some rt ∧
        (Match rt "/health").1 = true ∧ (Match rt "/health/").1 = false.
Proof.
  destruct (literal_template_accepts_itself_only "/health" "GET" (answering "up"))
    as (rt & Hc & _ & HM); [reflexivity|].
  exists rt. split; [exact Hc|]. split; [by apply HM|].
  destruct (Match rt "/health/").1 eqn:H; [|reflexivity].
  apply HM in H. discriminate H.
Defined.

(** ** Where the two passes go wrong *)

(** C6, on the code: in the template [/{lang?}/{page}] the optional
    parameter stands before the required one. [compile] records [page]
    first, so the path [/en/home], spelled with [en] for [lang] and [home]
    for [page], is accepted but gives back [page] bound to [en] and [lang]
    bound to [home]: not the values that were substituted. *)
Theorem round_trip_swaps_values (h : HandlerFunc) :
  ∃ rt,
    compile (declared "GET" (template_of [Fixed "/"; Opt "lang" "en"; Fixed "/"; Req "page" "home"]) h)
      = Some rt ∧
    path rt = "/{lang?}/{page}" ∧
    paramNames rt = ["page"; "lang"] ∧
    path_of [Fixed "/"; Opt "lang" "en"; Fixed "/"; Req "page" "home"] = "/en/home" ∧
    Match rt "/en/home" = (true, {["page" := "en"; "lang" := "home"]}).
Proof.
  eexists. split; [vm_compute; reflexivity|]. split; [reflexivity|].
  split; [reflexivity|]. split; [reflexivity|]. vm_compute. reflexivity.
Qed.

(** C10, on the code: the route compiled from [/{lang?}/{page}] accepts the
    path [//home], in which the optional segment is left out, and binds
    [lang] to [home]; the required parameter [page] is not bound at all. *)
Theorem required_parameter_left_unbound (h : HandlerFunc) :
  ∃ rt,
    compile (declared "GET" "/{lang?}/{page}" h) = Some rt ∧
    paramNames rt = ["page"; "lang"] ∧
    Match rt "//home" = (true, {["lang" := "home"]}) ∧
    (Match rt "//home").2 !! "page" = None.
Proof.
  eexists. split; [vm_compute; reflexivity|]. split; [reflexivity|].
  split; vm_compute; reflexivity.
Qed.

(** ** More of the built-in middleware *)

(** A request of one client leaves the entry of every other client as it
    is. *)
Lemma RateLimit_other (N : Z) (next : HandlerFunc) (now : Z)
    (clients : gmap string client) (ctx : Context) (ip : string) :
  IP ctx ≠ ip → (RateLimitMiddleware N next now clients ctx).1 !! ip = clients !! ip.
Proof.
  intros Hne. unfold RateLimitMiddleware.
  destruct (clients !! IP ctx) as [c|]; [|by cbn; rewrite lookup_insert_ne].
  destruct (N <=? _)%Z; by cbn; rewrite lookup_insert_ne.
Qed.

(** The answer to a request and the entry it leaves depend on the entry of
    its client only. *)
Lemma RateLimit_same (N : Z) (next : HandlerFunc) (now : Z)
    (clients1 clients2 : gmap string client) (ctx : Context) :
  clients1 !! IP ctx = clients2 !! IP ctx →
  (RateLimitMiddleware N next now clients1 ctx).2
  = (RateLimitMiddleware N next now clients2 ctx).2 ∧
  (RateLimitMiddleware N next now clients1 ctx).1 !! IP ctx
  = (RateLimitMiddleware N next now clients2 ctx).1 !! IP ctx.
Proof.
  intros H. unfold RateLimitMiddleware. rewrite H.
  destruct (clients2 !! IP ctx) as [c|]; [|by cbn; rewrite !lookup_insert_eq].
  destruct (N <=? _)%Z; by cbn; rewrite !lookup_insert_eq.
Qed.

Lemma serve_of_client (N : Z) (next : HandlerFunc) (reqs : list (Z * Context))
    (clients1 clients2 : gmap string client) (ip : string) :
  clients1 !! ip = clients2 !! ip →
  (serve N next reqs clients1).1 !! ip = (serve N next (of_client ip reqs) clients2).1 !! ip ∧
  answers_to ip reqs (serve N next reqs clients1).2
  = (serve N next (of_client ip reqs) clients2).2.
Proof.
  revert clients1 clients2. induction reqs as [|[now ctx] reqs IH]; intros clients1 clients2 H.
  - done.
  - unfold of_client, answers_to in *. cbn [serve fst snd zip zip_with].
    rewrite !filter_cons. cbn [fst snd].
    destruct (decide (IP ctx = ip)) as [Hip|Hip].
    + cbn [serve fst snd fmap list_fmap]. subst ip.
      destruct (RateLimit_same N next now clients1 clients2 ctx H) as [Ha Hc].
      destruct (IH _ _ Hc) as [IH1 IH2]. split; [exact IH1|]. by rewrite Ha, IH2.
    + apply IH. by rewrite RateLimit_other.
Qed.

Lemma RateLimit_bounded (N : Z) (next : HandlerFunc) (now : Z)
    (clients : gmap string client) (ctx : Context) :
  map_Forall (λ _ c, (0 ≤ requests c ≤ Z.max N 1)%Z) clients →
  map_Forall (λ _ c, (0 ≤ requests c ≤ Z.max N 1)%Z)
    (RateLimitMiddleware N next now clients ctx).1.
Proof.
  intros Hall. unfold RateLimitMiddleware.
  destruct (clients !! IP ctx) as [c|] eqn:Hc.
  - pose proof (Hall _ _ Hc) as Hold. cbn in Hold.
    destruct (resetTime c <? now)%Z; cbn [requests resetTime].
    + destruct (Z.leb_spec N 0); cbn [fst]; apply map_Forall_insert_2; cbn; try done; lia.
    + destruct (Z.leb_spec N (requests c)); cbn [fst]; apply map_Forall_insert_2; cbn;
        try done; lia.
  - cbn [fst]. apply map_Forall_insert_2; [cbn; lia|done].
Qed.

Lemma serve_bounded (N : Z) (next : HandlerFunc) (reqs : list (Z * Context))
    (clients : gmap string client) :
  map_Forall (λ _ c, (0 ≤ requests c ≤ Z.max N 1)%Z) clients →
  map_Forall (λ _ c, (0 ≤ requests c ≤ Z.max N 1)%Z) (serve N next reqs clients).1.
Proof.
  revert clients. induction reqs as [|[now ctx] reqs IH]; intros clients H; [done|].
  cbn [serve fst]. by apply IH, RateLimit_bounded.
Qed.

(** Clients do not interfere: in any run of requests, from any state of
    the limiter, the answers a client gets and the entry the limiter keeps
    for it are those of the run in which the requests of all other clients
    are left out. *)
Theorem RateLimit_clients_do_not_interfere (N : Z) (next : HandlerFunc)
    (reqs : list (Z * Context)) (clients : gmap string client) (ip : string) :
  (serve N next reqs clients).1 !! ip = (serve N next (of_client ip reqs) clients).1 !! ip ∧
  answers_to ip reqs (serve N next reqs clients).2
  = (serve N next (of_client ip reqs) clients).2.
Proof. by apply serve_of_client. Qed.

(** The counter of a client stays within the quota: starting from the
    empty map the middleware is created with, after any run of requests
    every counter lies between 0 and the quota (or 1, which the first
    request of a client sets, when the quota is below 1). The Go [int]
    therefore does not wrap. *)
Theorem RateLimit_counter_within_quota (N : Z) (next : HandlerFunc)
    (reqs : list (Z * Context)) (ip : string) (c : client) :
  (serve N next reqs ∅).1 !! ip = Some c →
  (0 ≤ requests c ≤ Z.max N 1)%Z.
Proof.
  intros H. by apply (serve_bounded N next reqs ∅ (map_Forall_empty _) ip c).
Qed.

(** Quota 2 and four requests of one client within the minute. *)
Lemma RateLimit_counter_within_quota_witness :
  ∃ c, (serve 2 (answering "downstream")
          [(0%Z, visitor); (1%Z, visitor); (2%Z, visitor); (3%Z, visitor)] ∅).1 !! "10.0.0.1"
       = Some c ∧ (0 ≤ requests c ≤ 2)%Z.
Proof.
  eexists. split; [vm_compute; reflexivity|].
  apply (RateLimit_counter_within_quota 2 (answering "downstream")
           [(0%Z, visitor); (1%Z, visitor); (2%Z, visitor); (3%Z, visitor)] "10.0.0.1").
  vm_compute. reflexivity.
Defined.

(** The complement of the gate's refusal: a [GET], a [DELETE], and a
    request of any method whose [Content-Type] contains [application/json]
    anywhere, are handed to the downstream handler unchanged. *)
Theorem JSONOnly_passes (next : HandlerFunc) (ctx : Context) :
  Method (fastCtx ctx) = "GET" ∨ Method (fastCtx ctx) = "DELETE" ∨
  Strings.Contains (Header ctx "Content-Type") "application/json" = true →
  JSONOnlyMiddleware next ctx = next ctx.
Proof.
  unfold JSONOnlyMiddleware. intros [-> | [-> | ->]]; [done| |].
  - by destruct (negb _).
  - cbn [negb]. by destruct (_ && _).
Qed.

(** A [POST] that declares [application/json; charset=utf-8]. *)
Lemma JSONOnly_passes_witness :
  JSONOnlyMiddleware (answering "downstream")
    (NewContext "POST" "/users" "10.0.0.1"
       {["Content-Type" := "application/json; charset=utf-8"]})
  = answering "downstream"
      (NewContext "POST" "/users" "10.0.0.1"
         {["Content-Type" := "application/json; charset=utf-8"]}).
Proof.
  apply (JSONOnly_passes (answering "downstream")). right. right. vm_compute. reflexivity.
Defined.
